(** * TabFS background script: the synthetic-filesystem route engine

    A shallow embedding of [extension/background.js]: the error codes, the
    handle cache, the content-route adapter [makeRouteWithContents], route
    resolution [tryMatchRoute] and the dispatcher [onMessage], followed by
    the properties of the specification that are settled against them. *)

From Stdlib Require Import ZArith NArith List String Ascii Lia.
From Stdlib Require Import Strings.Byte DecimalString Sorting.Sorted Sorting.Permutation.
From stdpp Require Import base gmap strings list fin_maps sorting.

Local Open Scope Z_scope.
#[local] Set Warnings "-register-all".

(** ** Platform data: bytes and JavaScript strings *)

(** An element of a [Uint8Array]. *)
Abbreviation byte := Byte.byte.

(** A JavaScript string is a sequence of UTF-16 code units. *)
Definition jsstring := list N.

(** A source literal, read as a JavaScript string (one unit per character). *)
Definition str (s : string) : jsstring :=
  map N_of_ascii (list_ascii_of_string s).

(** Storing a number into a [Uint8Array] keeps its low eight bits. *)
Definition byte_of_N (n : N) : byte :=
  match Byte.of_N (n mod 256)%N with
  | Some b => b
  | None => Byte.x00
  end.

(** [String.fromCharCode(...arr)]: one code unit per byte. *)
Definition fromCharCode (arr : list byte) : jsstring := map Byte.to_N arr.

Module Utf8.

Local Open Scope N_scope.

Definition is_high_surrogate (c : N) : bool := (0xD800 <=? c) && (c <=? 0xDBFF).
Definition is_low_surrogate (c : N) : bool := (0xDC00 <=? c) && (c <=? 0xDFFF).

(** The scalar values of a string: a surrogate pair is one code point and
    a lone surrogate reads as U+FFFD. *)
Fixpoint code_points (s : jsstring) : list N :=
  match s with
  | [] => []
  | c :: rest =>
      if is_high_surrogate c then
        match rest with
        | d :: rest' =>
            if is_low_surrogate d
            then (0x10000 + N.shiftl (c - 0xD800) 10 + (d - 0xDC00)) :: code_points rest'
            else 0xFFFD :: code_points rest
        | [] => [0xFFFD]
        end
      else if is_low_surrogate c then 0xFFFD :: code_points rest
      else c :: code_points rest
  end.

Definition encode_cp (cp : N) : list byte :=
  if cp <? 0x80 then [byte_of_N cp]
  else if cp <? 0x800 then
    [byte_of_N (N.lor 0xC0 (N.shiftr cp 6));
     byte_of_N (N.lor 0x80 (N.land cp 0x3F))]
  else if cp <? 0x10000 then
    [byte_of_N (N.lor 0xE0 (N.shiftr cp 12));
     byte_of_N (N.lor 0x80 (N.land (N.shiftr cp 6) 0x3F));
     byte_of_N (N.lor 0x80 (N.land cp 0x3F))]
  else
    [byte_of_N (N.lor 0xF0 (N.shiftr cp 18));
     byte_of_N (N.lor 0x80 (N.land (N.shiftr cp 12) 0x3F));
     byte_of_N (N.lor 0x80 (N.land (N.shiftr cp 6) 0x3F));
     byte_of_N (N.lor 0x80 (N.land cp 0x3F))].

(** [new TextEncoder("utf-8").encode(s)]. *)
Definition encode (s : jsstring) : list byte :=
  flat_map encode_cp (code_points s).

(** The decoder of the Encoding Standard, with replacement on error. *)
Record dstate := DState {
  code_point : N; bytes_seen : N; bytes_needed : N;
  lower_boundary : N; upper_boundary : N }.

Definition dstart : dstate := DState 0 0 0 0x80 0xBF.

(** A byte met when no sequence is open. *)
Definition lead (b : N) : list N * dstate :=
  if b <=? 0x7F then ([b], dstart)
  else if (0xC2 <=? b) && (b <=? 0xDF) then
    ([], DState (N.land b 0x1F) 0 1 0x80 0xBF)
  else if (0xE0 <=? b) && (b <=? 0xEF) then
    ([], DState (N.land b 0xF) 0 2
                (if b =? 0xE0 then 0xA0 else 0x80)
                (if b =? 0xED then 0x9F else 0xBF))
  else if (0xF0 <=? b) && (b <=? 0xF4) then
    ([], DState (N.land b 0x7) 0 3
                (if b =? 0xF0 then 0x90 else 0x80)
                (if b =? 0xF4 then 0x8F else 0xBF))
  else ([0xFFFD], dstart).

Definition dstep (st : dstate) (b : N) : list N * dstate :=
  if bytes_needed st =? 0 then lead b
  else if (lower_boundary st <=? b) && (b <=? upper_boundary st) then
    let cp := N.lor (N.shiftl (code_point st) 6) (N.land b 0x3F) in
    if bytes_seen st + 1 =? bytes_needed st then ([cp], dstart)
    else ([], DState cp (bytes_seen st + 1) (bytes_needed st) 0x80 0xBF)
  else
    (* the byte is put back and read again with no sequence open *)
    let '(out, st') := lead b in (0xFFFD :: out, st').

Fixpoint drun (st : dstate) (bs : list byte) : list N :=
  match bs with
  | [] => if bytes_needed st =? 0 then [] else [0xFFFD]
  | b :: rest =>
      let '(out, st') := dstep st (Byte.to_N b) in
      out ++ drun st' rest
  end.

Definition units_of_cp (cp : N) : jsstring :=
  if cp <? 0x10000 then [cp]
  else [0xD800 + N.shiftr (cp - 0x10000) 10;
        0xDC00 + N.land (cp - 0x10000) 0x3FF].

Definition strip_bom (cps : list N) : list N :=
  match cps with
  | 0xFEFF :: rest => rest
  | _ => cps
  end.

(** [new TextDecoder("utf-8").decode(arr)]. *)
Definition decode (bs : list byte) : jsstring :=
  flat_map units_of_cp (strip_bom (drun dstart bs)).

End Utf8.

Definition stringToUtf8Array (s : jsstring) : list byte := Utf8.encode s.
Definition utf8ArrayToString (utf8 : list byte) : jsstring := Utf8.decode utf8.

(** ** Error codes and file types: the [unix] table *)

Module unix.
Definition ENOENT : Z := 2.
Definition ESRCH : Z := 3.
Definition EINTR : Z := 4.
Definition EIO : Z := 5.
Definition ENXIO : Z := 6.
Definition ENOTSUP : Z := 45.
Definition ETIMEDOUT : Z := 110.
(* the file types are octal in the source *)
Definition S_IFMT : Z := 0xF000.   (* 0170000 *)
Definition S_IFIFO : Z := 0x1000.  (* 010000 *)
Definition S_IFCHR : Z := 0x2000.  (* 020000 *)
Definition S_IFDIR : Z := 0x4000.  (* 040000 *)
Definition S_IFBLK : Z := 0x6000.  (* 060000 *)
Definition S_IFREG : Z := 0x8000.  (* 0100000 *)
Definition S_IFLNK : Z := 0xA000.  (* 0120000 *)
Definition S_IFSOCK : Z := 0xC000. (* 0140000 *)
End unix.

(** A thrown value: a [UnixError] carrying its code, or any other error,
    kept by name ([TypeError], [RangeError], ...). *)
Inductive Exn : Type :=
| UnixError (error : Z)
| JsError (name : string).

(** The values that occur in request and response fields. *)
Inductive JsVal : Type :=
| VNum (n : Z)
| VStr (s : jsstring).

(** A plain object, such as a handler's result or a response. *)
Abbreviation Obj := (gmap string JsVal).

(** ** Typed arrays *)

(** A reference to a [Uint8Array]; two holders of one reference see each
    other's writes. *)
Definition loc := positive.

Module U8.

(** [new Uint8Array(n)]: [n] zero bytes. *)
Definition make (n : Z) : Exn + list byte :=
  if n <? 0 then inl (JsError "RangeError")
  else inr (replicate (Z.to_nat n) Byte.x00).

(** A relative index of [slice], clamped to the array. *)
Definition clamp (len i : Z) : Z :=
  if i <? 0 then Z.max (len + i) 0 else Z.min i len.

(** [arr.slice(start, end)]. *)
Definition slice (arr : list byte) (start end_ : Z) : list byte :=
  let len := Z.of_nat (length arr) in
  let k := clamp len start in
  let final := clamp len end_ in
  take (Z.to_nat (final - k)) (drop (Z.to_nat k) arr).

(** [target.set(src, offset)]: the contents of [target] afterwards. *)
Definition set (target src : list byte) (offset : Z) : Exn + list byte :=
  if (offset <? 0) || (Z.of_nat (length target) <? offset + Z.of_nat (length src))
  then inl (JsError "RangeError")
  else inr (take (Z.to_nat offset) target ++ src
            ++ drop (Z.to_nat offset + length src) target).

End U8.

(** ** The state of the script: the heap of arrays and the [Cache] object *)

Record StoredObject := { so_path : jsstring; so_object : loc }.

Record State := {
  heap : gmap loc (list byte);
  store : gmap Z StoredObject;   (* Cache.store *)
  nextHandle : Z                 (* Cache.nextHandle *)
}.

Definition initial : State := {| heap := ∅; store := ∅; nextHandle := 0 |}.

(** Synchronous code: it reads and updates the state and may throw. What
    was written before a throw stays written. *)
Definition M (A : Type) : Type := State → State * (Exn + A).

Definition ret {A} (a : A) : M A := λ σ, (σ, inr a).
Definition throw {A} (e : Exn) : M A := λ σ, (σ, inl e).
Definition bind {A B} (m : M A) (f : A → M B) : M B :=
  λ σ, match m σ with
       | (σ', inl e) => (σ', inl e)
       | (σ', inr a) => f a σ'
       end.
Definition lift {A} (r : Exn + A) : M A := λ σ, (σ, r).

Notation "'let!' x := m 'in' k" := (bind m (λ x, k))
  (at level 10, x name, m at level 100, k at level 200, only parsing).
Notation "'do!' m 'in' k" := (bind m (λ _, k))
  (at level 10, m at level 100, k at level 200, only parsing).

(** [++n] on a number, for the values a counter that starts at 0 takes:
    exact below 2^53, where doubles stop being able to represent the
    successor (2^53 + 1 rounds back to 2^53, and the counter stays
    there). *)
Definition js_incr (n : Z) : Z := if n <? 2 ^ 53 then n + 1 else n.

(** Allocation of a new array. *)
Definition alloc (bs : list byte) : M loc :=
  λ σ, let l := fresh (dom (heap σ)) in
       ({| heap := <[l := bs]> (heap σ); store := store σ;
           nextHandle := nextHandle σ |}, inr l).

(** The contents of an array. *)
Definition deref (l : loc) : M (list byte) :=
  λ σ, (σ, inr (default [] (heap σ !! l))).

(** An in-place update of an array. *)
Definition assign (l : loc) (bs : list byte) : M unit :=
  λ σ, ({| heap := <[l := bs]> (heap σ); store := store σ;
           nextHandle := nextHandle σ |}, inr tt).

Module Cache.

Definition storeObject (path : jsstring) (object : loc) : M Z :=
  λ σ, let handle := js_incr (nextHandle σ) in
       ({| heap := heap σ;
           store := <[handle := {| so_path := path; so_object := object |}]> (store σ);
           nextHandle := handle |}, inr handle).

Definition getObjectForHandle (handle : Z) : M loc :=
  λ σ, match store σ !! handle with
       | Some so => (σ, inr (so_object so))
       | None => (σ, inl (JsError "TypeError"))
       end.

Definition setObjectForHandle (handle : Z) (object : loc) : M unit :=
  λ σ, match store σ !! handle with
       | Some so =>
           ({| heap := heap σ;
               store := <[handle := {| so_path := so_path so; so_object := object |}]> (store σ);
               nextHandle := nextHandle σ |}, inr tt)
       | None => (σ, inl (JsError "TypeError"))
       end.

Definition removeObjectForHandle (handle : Z) : M unit :=
  λ σ, ({| heap := heap σ; store := delete handle (store σ);
           nextHandle := nextHandle σ |}, inr tt).

Definition setObjectForPath (path : jsstring) (object : loc) : M unit :=
  λ σ, ({| heap := heap σ;
           store := (λ so, if decide (so_path so = path)
                           then {| so_path := so_path so; so_object := object |}
                           else so) <$> store σ;
           nextHandle := nextHandle σ |}, inr tt).

End Cache.

(** ** Requests, accessors and asynchronous handlers *)

(** The bindings a route's pattern extracts from a path. *)
Definition Vars := list (string * jsstring).

(** A request as a handler sees it: the envelope's fields and, once a
    route has matched, the bindings of [{...req, ...vars}]. A binding is
    kept beside the envelope's fields: the variable names of a pattern are
    not names of envelope fields. A field that the host left out of the
    message is [None] for [buf] (the only field tested for presence). *)
Record Req := {
  req_id : Z;
  req_op : jsstring;
  req_path : jsstring;
  req_fh : Z;
  req_offset : Z;
  req_size : Z;
  req_buf : option jsstring;
  req_vars : Vars
}.

(** What [getData] gives for a file that exists: a string or an array. *)
Inductive Contents : Type :=
| CString (s : jsstring)
| CArray (l : loc).

(** The value of a settled accessor call; [None] is [undefined]. *)
Definition Data := option Contents.

Inductive Settled : Type :=
| Resolved (d : Data)
| Rejected (e : Exn).

(** The accessor functions of a route are the environment's: a handler
    names the one it calls. *)
Definition Accessor := string.

Inductive Call : Type :=
| CallGet (getData : Accessor) (req : Req)
| CallSet (setData : Accessor) (req : Req) (newContents : jsstring).

(** An async function between two awaits: it has returned, it has thrown,
    or it waits for a call to settle and then runs on from the state it
    finds. *)
Inductive Task : Type :=
| Done (result : Obj)
| Raise (e : Exn)
| Await (c : Call) (k : Settled → State → State * Task).

Definition Async := State → State * Task.
Definition Handler := Req → Async.

Definition async (m : M Task) : Async :=
  λ σ, match m σ with
       | (σ', inl e) => (σ', Raise e)
       | (σ', inr t) => (σ', t)
       end.

(** [await call]: a rejection is rethrown where the await stands. *)
Definition await (c : Call) (k : Data → M Task) : Task :=
  Await c (λ s, match s with
                | Resolved d => async (k d)
                | Rejected e => λ σ, (σ, Raise e)
                end).

(** ** [makeRouteWithContents] *)

Definition toUtf8Array (stringOrArray : Contents) : M loc :=
  match stringOrArray with
  | CString s => alloc (stringToUtf8Array s)
  | CArray l => ret l
  end.

Definition zlength (bs : list byte) : Z := Z.of_nat (length bs).

Section makeRouteWithContents.

Variable getData : Accessor.
Variable setData : option Accessor.

(** [await setData(req, text)]: calling [undefined] throws. *)
Definition call_setData (req : Req) (text : jsstring) (k : M Task) : M Task :=
  match setData with
  | Some f => ret (await (CallSet f req text) (λ _, k))
  | None => throw (JsError "TypeError")
  end.

Definition getattr : Handler := λ req,
  async (ret (await (CallGet getData req) (λ data,
    match data with
    | None => throw (UnixError unix.ENOENT)
    | Some data =>
        let! arr := toUtf8Array data in
        let! bytes := deref arr in
        ret (Done {[ "st_mode" :=
                       VNum (Z.lor (Z.lor unix.S_IFREG 0x124 (* 0444 *))
                                   (match setData with
                                    | Some _ => 0x92 (* 0222 *)
                                    | None => 0
                                    end));
                     "st_nlink" := VNum 1;
                     "st_size" := VNum (zlength bytes) ]})
    end))).

Definition open : Handler := λ req,
  async (ret (await (CallGet getData req) (λ data,
    match data with
    | None => throw (UnixError unix.ENOENT)
    | Some data =>
        let! arr := toUtf8Array data in
        let! handle := Cache.storeObject (req_path req) arr in
        ret (Done {[ "fh" := VNum handle ]})
    end))).

Definition read : Handler := λ req,
  async (
    let! arr := Cache.getObjectForHandle (req_fh req) in
    let! bytes := deref arr in
    ret (Done {[ "buf" := VStr (fromCharCode
           (U8.slice bytes (req_offset req) (req_offset req + req_size req))) ]})).

Definition write : Handler := λ req,
  async (
    let offset := req_offset req in
    let! arr := Cache.getObjectForHandle (req_fh req) in
    let! bytes := deref arr in
    (* [stringToUtf8Array(undefined)] is the empty array *)
    let bufarr := stringToUtf8Array (default [] (req_buf req)) in
    let! arr :=
      (if offset + zlength bufarr >? zlength bytes then
         let! zeros := lift (U8.make (offset + zlength bufarr)) in
         let! newArr := alloc zeros in
         let! kept := lift (U8.set zeros
                        (U8.slice bytes 0 (Z.min offset (zlength bytes))) 0) in
         do! assign newArr kept in
         do! Cache.setObjectForHandle (req_fh req) newArr in
         ret newArr
       else ret arr) in
    let! bytes := deref arr in
    let! written := lift (U8.set bytes bufarr offset) in
    do! assign arr written in
    call_setData req (utf8ArrayToString written)
      (ret (Done {[ "size" := VNum (zlength bufarr) ]}))).

Definition release : Handler := λ req,
  async (
    do! Cache.removeObjectForHandle (req_fh req) in
    ret (Done ∅)).

Definition truncate : Handler := λ req,
  async (ret (await (CallGet getData req) (λ data,
    let! arr :=
      (match data with
       | Some data => toUtf8Array data
       | None => throw (JsError "TypeError")  (* [undefined.length] *)
       end) in
    let! bytes := deref arr in
    let! arr :=
      (if decide (req_size req ≠ zlength bytes) then
         let! zeros := lift (U8.make (req_size req)) in
         let! newArr := alloc zeros in
         let! kept := lift (U8.set zeros
                        (U8.slice bytes 0 (Z.min (req_size req) (zlength bytes))) 0) in
         do! assign newArr kept in
         ret newArr
       else ret arr) in
    do! Cache.setObjectForPath (req_path req) arr in
    let! bytes := deref arr in
    call_setData req (utf8ArrayToString bytes) (ret (Done ∅))))).

(** The object of operations, looked up by name as in [route[req.op]]. *)
Definition makeRouteWithContents : jsstring → option Handler := λ name,
  if decide (name = str "getattr") then Some getattr
  else if decide (name = str "open") then Some open
  else if decide (name = str "read") then Some read
  else if decide (name = str "write") then Some write
  else if decide (name = str "release") then Some release
  else if decide (name = str "truncate") then Some truncate
  else None.

End makeRouteWithContents.

(** ** [btoa] and [atob] *)

Module Base64.

Local Open Scope N_scope.

(** The character of a six-bit value. *)
Definition alphabet (n : N) : N :=
  if n <? 26 then 65 + n                (* A-Z *)
  else if n <? 52 then 97 + (n - 26)    (* a-z *)
  else if n <? 62 then 48 + (n - 52)    (* 0-9 *)
  else if n =? 62 then 43               (* + *)
  else 47.                              (* / *)

(** The six-bit value of a character of the alphabet. *)
Definition sextet (c : N) : option N :=
  if (65 <=? c) && (c <=? 90) then Some (c - 65)
  else if (97 <=? c) && (c <=? 122) then Some (c - 97 + 26)
  else if (48 <=? c) && (c <=? 57) then Some (c - 48 + 52)
  else if c =? 43 then Some 62
  else if c =? 47 then Some 63
  else None.

Definition pad : N := 61. (* = *)

Fixpoint encode (bs : list N) : jsstring :=
  match bs with
  | [] => []
  | [a] => [alphabet (a / 4); alphabet (a mod 4 * 16); pad; pad]
  | [a; b] =>
      [alphabet (a / 4); alphabet (a mod 4 * 16 + b / 16);
       alphabet (b mod 16 * 4); pad]
  | a :: b :: c :: rest =>
      alphabet (a / 4) :: alphabet (a mod 4 * 16 + b / 16)
      :: alphabet (b mod 16 * 4 + c / 64) :: alphabet (c mod 64)
      :: encode rest
  end.

(** [btoa(s)]: a string with a unit above 255 is refused. *)
Definition btoa (s : jsstring) : Exn + jsstring :=
  if forallb (λ c, c <=? 255) s then inr (encode s)
  else inl (JsError "InvalidCharacterError").

Definition is_whitespace (c : N) : bool :=
  (c =? 9) || (c =? 10) || (c =? 12) || (c =? 13) || (c =? 32).

(** One or two [=] at the end are dropped. *)
Fixpoint strip_padding (s : jsstring) : jsstring :=
  match s with
  | [] => []
  | c :: rest =>
      match rest with
      | [] => if c =? pad then [] else [c]
      | [d] => if (c =? pad) && (d =? pad) then [] else c :: strip_padding rest
      | _ => c :: strip_padding rest
      end
  end.

Fixpoint sextets (s : jsstring) : option (list N) :=
  match s with
  | [] => Some []
  | c :: rest =>
      match sextet c, sextets rest with
      | Some v, Some vs => Some (v :: vs)
      | _, _ => None
      end
  end.

(** Four values give three bytes; a rest of three gives two bytes and a
    rest of two gives one, the spare bits being dropped. *)
Fixpoint decode (vs : list N) : jsstring :=
  match vs with
  | a :: b :: c :: d :: rest =>
      let n := ((a * 64 + b) * 64 + c) * 64 + d in
      n / 65536 :: n / 256 mod 256 :: n mod 256 :: decode rest
  | [a; b; c] =>
      let n := ((a * 64 + b) * 64 + c) / 4 in
      [n / 256; n mod 256]
  | [a; b] => [(a * 64 + b) / 16]
  | _ => []
  end.

(** [atob(s)]: the forgiving decoder of the platform. *)
Definition atob (s : jsstring) : Exn + jsstring :=
  let data := filter (λ c, is_whitespace c = false) s in
  let data := if N.of_nat (length data) mod 4 =? 0
              then strip_padding data else data in
  if N.of_nat (length data) mod 4 =? 1
  then inl (JsError "InvalidCharacterError")
  else match sextets data with
       | Some vs => inr (decode vs)
       | None => inl (JsError "InvalidCharacterError")
       end.

End Base64.

(** ** Routes and their resolution *)

(** A route: its operations, with the matcher and the count of variables
    of its pattern. The script reads [__match] and [__matchVarCount] from
    every route and sets them nowhere: they belong to the registration of
    a route and are taken as given. *)
Record Route := {
  __matchVarCount : Z;
  __match : jsstring → option Vars;
  route_op : jsstring → option Handler
}.

(** The [Routes] object: keys in order of first assignment (a path is
    never an array index, so that order is the order of [Object.values]). *)
Definition RoutesT := list (jsstring * Route).

(** [Routes[key] = route]. *)
Fixpoint assign_route (key : jsstring) (route : Route) (Routes : RoutesT) : RoutesT :=
  match Routes with
  | [] => [(key, route)]
  | (k, r) :: rest =>
      if decide (k = key) then (k, route) :: rest
      else (k, r) :: assign_route key route rest
  end.

(** [Object.values(Routes)]. *)
Definition values (Routes : RoutesT) : list Route := map snd Routes.

(** [sort] with the comparator [a.__matchVarCount - b.__matchVarCount]:
    the stable sort, written as an insertion sort. *)
Definition compare_routes (a b : Route) : Z := __matchVarCount a - __matchVarCount b.

Fixpoint insert_route (a : Route) (l : list Route) : list Route :=
  match l with
  | [] => [a]
  | b :: rest =>
      if compare_routes a b <=? 0 then a :: b :: rest
      else b :: insert_route a rest
  end.

Fixpoint sort_routes (l : list Route) : list Route :=
  match l with
  | [] => []
  | a :: rest => insert_route a (sort_routes rest)
  end.

Definition sortedRoutes (Routes : RoutesT) : list Route := sort_routes (values Routes).

(** [path.match(/\/\._[^\/]+$/)], tried at the head of [s]. *)
Definition appleDouble_at (s : jsstring) : bool :=
  match s with
  | 47%N :: 46%N :: 95%N :: c :: rest => forallb (λ x, negb (x =? 47)%N) (c :: rest)
  | _ => false
  end.

(** The same search at every position of the path. *)
Fixpoint appleDouble (path : jsstring) : bool :=
  appleDouble_at path ||
  match path with
  | [] => false
  | _ :: rest => appleDouble rest
  end.

Fixpoint first_match (routes : list Route) (path : jsstring) : option (Route * Vars) :=
  match routes with
  | [] => None
  | route :: rest =>
      match __match route path with
      | Some vars => Some (route, vars)
      | None => first_match rest path
      end
  end.

Definition tryMatchRoute (sorted : list Route) (path : jsstring) : Exn + Route * Vars :=
  if appleDouble path then inl (UnixError unix.ENOTSUP)
  else match first_match sorted path with
       | Some found => inr found
       | None => inl (UnixError unix.ENOENT)
       end.

(** ** The dispatcher: [onMessage] *)

(** [String(v)], for the values of the model. *)
Definition to_jsstring (v : JsVal) : jsstring :=
  match v with
  | VStr s => s
  | VNum n => str (DecimalString.NilZero.string_of_int (Z.to_int n))
  end.

Definition truthy (v : JsVal) : bool :=
  match v with
  | VStr s => negb (bool_decide (s = []))
  | VNum n => negb (n =? 0)
  end.

Definition set_buf (req : Req) (buf : jsstring) : Req :=
  {| req_id := req_id req; req_op := req_op req; req_path := req_path req;
     req_fh := req_fh req; req_offset := req_offset req; req_size := req_size req;
     req_buf := Some buf; req_vars := req_vars req |}.

(** [{...req, ...vars}]. *)
Definition with_vars (req : Req) (vars : Vars) : Req :=
  {| req_id := req_id req; req_op := req_op req; req_path := req_path req;
     req_fh := req_fh req; req_offset := req_offset req; req_size := req_size req;
     req_buf := req_buf req; req_vars := vars |}.

(** [if (req.buf) req.buf = atob(req.buf)]. *)
Definition decode_buf (req : Req) : Exn + Req :=
  match req_buf req with
  | Some b =>
      if truthy (VStr b)
      then match Base64.atob b with
           | inr bytes => inr (set_buf req bytes)
           | inl e => inl e
           end
      else inr req
  | None => inr req
  end.

(** [e instanceof UnixError ? e.error : unix.EIO]. *)
Definition error_code (e : Exn) : Z :=
  match e with
  | UnixError error => error
  | JsError _ => unix.EIO
  end.

(** The object built in the [catch] block. *)
Definition error_response (req : Req) (e : Exn) : Obj :=
  {[ "op" := VStr (req_op req); "error" := VNum (error_code e) ]}.

(** The object posted by the timer's callback. *)
Definition timeout_response (req : Req) : Obj :=
  {[ "id" := VNum (req_id req); "op" := VStr (req_op req);
     "error" := VNum unix.ETIMEDOUT ]}.

(** The lines of the [try] block after the handler has returned. *)
Definition after_handler (req : Req) (response : Obj) : Exn + Obj :=
  let response := <["op" := VStr (req_op req)]> response in
  match response !! "buf" with
  | Some b =>
      if truthy b
      then match Base64.btoa (to_jsstring b) with
           | inr text => inr (<["buf" := VStr text]> response)
           | inl e => inl e
           end
      else inr response
  | None => inr response
  end.

Inductive Phase : Type :=
| Waiting (c : Call) (k : Settled → State → State * Task)  (* the handler is in an await *)
| Completed                           (* [onMessage] has run to its end *)
| Aborted (e : Exn).                  (* [onMessage] threw before its [try] *)

(** One run of [onMessage]: its local variables. The timer is held by
    the time it is due at, and is [None] before it is set and after it
    has fired or was cleared. *)
Record Session := {
  s_req : Req;
  s_phase : Phase;
  didTimeout : bool;
  timeout : option Z
}.

(** What a run of [onMessage] shares with the rest: the script's state,
    the messages posted to [port] (oldest first) and the clock, in
    milliseconds. *)
Record World := {
  w_state : State;
  w_port : list Obj;
  w_now : Z
}.

Definition with_state (w : World) (σ : State) : World :=
  {| w_state := σ; w_port := w_port w; w_now := w_now w |}.

Definition postMessage (w : World) (message : Obj) : World :=
  {| w_state := w_state w; w_port := w_port w ++ [message]; w_now := w_now w |}.

(** The end of [onMessage]: [if (!didTimeout) { ... }]. *)
Definition finish (ss : Session) (w : World) (response : Obj) : World * Session :=
  if didTimeout ss
  then (w, {| s_req := s_req ss; s_phase := Completed;
              didTimeout := true; timeout := timeout ss |})
  else (postMessage w (<["id" := VNum (req_id (s_req ss))]> response),
        {| s_req := s_req ss; s_phase := Completed;
           didTimeout := false; timeout := None |}).

(** The handler's promise, as [onMessage] finds it when it is given the
    turn. *)
Definition settle (ss : Session) (w : World) (t : Task) : World * Session :=
  match t with
  | Done result =>
      match after_handler (s_req ss) result with
      | inr response => finish ss w response
      | inl e => finish ss w (error_response (s_req ss) e)
      end
  | Raise e => finish ss w (error_response (s_req ss) e)
  | Await c k =>
      (w, {| s_req := s_req ss; s_phase := Waiting c k;
             didTimeout := didTimeout ss; timeout := timeout ss |})
  end.

(** The locals of [onMessage] once [setTimeout(..., 1000)] has run. *)
Definition armed (req : Req) (now : Z) : Session :=
  {| s_req := req; s_phase := Completed; didTimeout := false;
     timeout := Some (now + 1000) |}.

(** A failure as the host receives it: [{id, op, error}]. *)
Definition error_message (req : Req) (code : Z) : Obj :=
  {[ "id" := VNum (req_id req); "op" := VStr (req_op req); "error" := VNum code ]}.

(** [onMessage(req)], up to the first await of the handler. *)
Definition onMessage (sorted : list Route) (req : Req) (w : World) : World * Session :=
  match decode_buf req with
  | inl e =>
      (w, {| s_req := req; s_phase := Aborted e; didTimeout := false; timeout := None |})
  | inr req =>
      let ss := armed req (w_now w) in
      match tryMatchRoute sorted (req_path req) with
      | inl e => finish ss w (error_response req e)
      | inr (route, vars) =>
          match route_op route (req_op req) with
          | None => finish ss w (error_response req (JsError "TypeError"))
          | Some handler =>
              let '(σ, t) := handler (with_vars req vars) (w_state w) in
              settle ss (with_state w σ) t
          end
      end
  end.

(** What happens next to a run of [onMessage]. *)
Inductive Event : Type :=
| Settle (s : Settled)            (* the call the handler awaits settles *)
| TimerFires                      (* the callback of [setTimeout] runs *)
| Elapse (ms : Z)                 (* time passes *)
| Interleave (f : State → State). (* code of another request runs *)

(** One event; [None] when it cannot happen in this configuration. *)
Definition step (ev : Event) (c : World * Session) : option (World * Session) :=
  let '(w, ss) := c in
  match ev with
  | Settle s =>
      match s_phase ss with
      | Waiting _ k =>
          let '(σ, t) := k s (w_state w) in
          Some (settle ss (with_state w σ) t)
      | _ => None
      end
  | TimerFires =>
      match timeout ss with
      | Some due =>
          if due <=? w_now w
          then Some (postMessage w (timeout_response (s_req ss)),
                     {| s_req := s_req ss; s_phase := s_phase ss;
                        didTimeout := true; timeout := None |})
          else None
      | None => None
      end
  | Elapse ms =>
      if 0 <=? ms
      then Some ({| w_state := w_state w; w_port := w_port w; w_now := w_now w + ms |}, ss)
      else None
  | Interleave f => Some (with_state w (f (w_state w)), ss)
  end.

(** A run: the events that happen, in order. *)
Fixpoint steps (evs : list Event) (c : World * Session) : option (World * Session) :=
  match evs with
  | [] => Some c
  | ev :: rest =>
      match step ev c with
      | Some c' => steps rest c'
      | None => None
      end
  end.

(** ** Reading the state *)

Definition contents (σ : State) (l : loc) : list byte := default [] (heap σ !! l).

(** The cached buffer of a handle, when the handle is in the cache. *)
Definition buffer (σ : State) (handle : Z) : option (list byte) :=
  match store σ !! handle with
  | Some so => Some (contents σ (so_object so))
  | None => None
  end.

(** The bytes of what the read accessor returned. *)
Definition bytes_of (σ : State) (c : Contents) : list byte :=
  match c with
  | CString s => stringToUtf8Array s
  | CArray l => contents σ l
  end.

(** The continuation of a suspended handler, run on the state it finds
    when the call it awaits has settled. *)
Definition continue (t : Task) (s : Settled) (σ : State) : State * Task :=
  match t with
  | Await _ k => k s σ
  | _ => (σ, t)
  end.






(** ** A registered route and requests, for examples *)

(** Modelled from the spec: the matcher of a path pattern, which the script
    reads from [route.__match] and does not define. A pattern is a sequence
    of [/]-delimited segments; a literal segment must equal the segment of
    the path, a variable segment captures it. *)
Inductive Segment : Type :=
| Lit (s : jsstring)
| Var (name : string).

Fixpoint split_on (sep : N) (s : jsstring) : list jsstring :=
  match s with
  | [] => [[]]
  | c :: rest =>
      if (c =? sep)%N then [] :: split_on sep rest
      else match split_on sep rest with
           | seg :: segs => (c :: seg) :: segs
           | [] => [[c]]
           end
  end.

Fixpoint match_segments (pattern : list Segment) (segs : list jsstring) : option Vars :=
  match pattern, segs with
  | [], [] => Some []
  | Lit s :: pattern', seg :: segs' =>
      if decide (seg = s) then match_segments pattern' segs' else None
  | Var name :: pattern', seg :: segs' =>
      match match_segments pattern' segs' with
      | Some vars => Some ((name, seg) :: vars)
      | None => None
      end
  | _, _ => None
  end.

Definition pattern_match (pattern : list Segment) (path : jsstring) : option Vars :=
  match split_on 47 path with
  | [] :: segs => match_segments pattern segs
  | _ => None
  end.

Definition is_var (seg : Segment) : bool :=
  match seg with
  | Var _ => true
  | Lit _ => false
  end.

Definition pattern_route (pattern : list Segment) (ops : jsstring → option Handler) : Route :=
  {| __matchVarCount := Z.of_nat (length (filter (λ seg, is_var seg = true) pattern));
     __match := pattern_match pattern;
     route_op := ops |}.

(** The route of [/tabs.json]. *)
Definition tabs_route (setData : option Accessor) : Route :=
  pattern_route [Lit (str "tabs.json")] (makeRouteWithContents "getTabs" setData).

Definition request (id : Z) (op path : string) : Req :=
  {| req_id := id; req_op := str op; req_path := str path;
     req_fh := 0; req_offset := 0; req_size := 0; req_buf := None; req_vars := [] |}.

Definition request_fh (id : Z) (op path : string) (fh offset size : Z)
    (buf : option jsstring) : Req :=
  {| req_id := id; req_op := str op; req_path := str path;
     req_fh := fh; req_offset := offset; req_size := size; req_buf := buf;
     req_vars := [] |}.

(** ** The contents a write and a truncate are to leave, in the words of
    the specification *)

(** [bytes] cut or zero-padded to [size] bytes. *)
Definition resized (bytes : list byte) (size : Z) : list byte :=
  take (Z.to_nat size) bytes
  ++ replicate (Z.to_nat size - length bytes)%nat Byte.x00.

(** [bytes] with [bufarr] written at [offset]: what lies before [offset]
    is kept, a gap up to [offset] is zero, what lies after the written
    bytes is kept. *)
Definition written (bytes bufarr : list byte) (offset : Z) : list byte :=
  take (Z.to_nat offset) bytes
  ++ replicate (Z.to_nat offset - length bytes)%nat Byte.x00
  ++ bufarr
  ++ drop (Z.to_nat offset + length bufarr)%nat bytes.

(** The world before any request, and the world after a request that was
    sent to the routes and whose awaited calls settled as given. *)
Definition world0 : World := {| w_state := initial; w_port := []; w_now := 0 |}.

Definition answered (sorted : list Route) (req : Req) (answers : list Settled)
    (w : World) : World :=
  match steps (map Settle answers) (onMessage sorted req w) with
  | Some (w', _) => w'
  | None => w
  end.

(** The cache after [Cache.setObjectForPath(path, arr)]. *)
Definition repointed (path : jsstring) (arr : loc) (so : StoredObject) : StoredObject :=
  if decide (so_path so = path)
  then {| so_path := so_path so; so_object := arr |} else so.

(** A property of the state that every step of a suspended handler keeps. *)
Inductive task_keeps (I : State → Prop) : Task → Prop :=
| keeps_done result : task_keeps I (Done result)
| keeps_raise e : task_keeps I (Raise e)
| keeps_await c k :
    (∀ s σ, I σ → I (fst (k s σ)) ∧ task_keeps I (snd (k s σ))) →
    task_keeps I (Await c k).

Definition handler_keeps (I : State → Prop) (handler : Handler) : Prop :=
  ∀ req σ, I σ → I (fst (handler req σ)) ∧ task_keeps I (snd (handler req σ)).

(** The handle was issued and is no longer in the cache. *)
Definition gone (handle : Z) (σ : State) : Prop :=
  store σ !! handle = None ∧ handle ≤ nextHandle σ ∧ handle < 2 ^ 53.

(** The order of [sortedRoutes]: fewer variables first. *)
Definition fewer_vars (a b : Route) : Prop := __matchVarCount a ≤ __matchVarCount b.

Definition matches (path : jsstring) (route : Route) : Prop :=
  is_Some (__match route path).

(** Three routes that match [/a/b], with no, one and two variables. *)
Definition route_a_b : Route := pattern_route [Lit (str "a"); Lit (str "b")] (λ _, None).
Definition route_a_x : Route := pattern_route [Lit (str "a"); Var "X"] (λ _, None).
Definition route_y_x : Route := pattern_route [Var "Y"; Var "X"] (λ _, None).

Definition three_routes : RoutesT :=
  assign_route (str "/a/b") route_a_b
    (assign_route (str "/a/#X") route_a_x
       (assign_route (str "/#Y/#X") route_y_x [])).

(** ** What a run of [onMessage] can have posted *)

(** The results a task can return, over all the ways its calls settle. *)
Inductive produces : Task → Obj → Prop :=
| produces_done result : produces (Done result) result
| produces_await c k s σ result :
    produces (snd (k s σ)) result → produces (Await c k) result.

(** Every result of every handler of the routes satisfies [P]. *)
Definition handlers_return (P : Obj → Prop) (routes : list Route) : Prop :=
  ∀ route name handler req σ result,
    route ∈ routes → route_op route name = Some handler →
    produces (snd (handler req σ)) result → P result.

(** A response built at the end of [onMessage]: the object of the [catch]
    block, or the handler's result with [op], [buf] and [id] set. *)
Definition answer (P : Obj → Prop) (req : Req) (message : Obj) : Prop :=
  (∃ e, message = error_message req (error_code e))
  ∨ (∃ result response,
        P result ∧ after_handler req result = inr response
        ∧ message = <["id" := VNum (req_id req)]> response).

(** The invariant of a run that began in the world [w0]: what it has
    posted since, and the state of its timer. *)
Definition run_inv (P : Obj → Prop) (w0 : World) (c : World * Session) : Prop :=
  let '(w, ss) := c in
  ∃ out,
    w_port w = w_port w0 ++ out
    ∧ match s_phase ss with
      | Waiting c k =>
          (∀ result, produces (Await c k) result → P result)
          ∧ if didTimeout ss
            then out = [timeout_response (s_req ss)] ∧ timeout ss = None
                 ∧ w_now w0 + 1000 ≤ w_now w
            else out = [] ∧ timeout ss = Some (w_now w0 + 1000)
      | Completed =>
          timeout ss = None
          ∧ if didTimeout ss
            then out = [timeout_response (s_req ss)] ∧ w_now w0 + 1000 ≤ w_now w
            else ∃ message, out = [message] ∧ answer P (s_req ss) message
      | Aborted _ => out = [] ∧ timeout ss = None ∧ didTimeout ss = false
      end.

Definition is_timer (ev : Event) : bool :=
  match ev with
  | TimerFires => true
  | _ => false
  end.


(** What a run has posted while its handler is not done. *)
Definition pending (w0 w : World) (ss : Session) (out : list Obj) : Prop :=
  if didTimeout ss
  then out = [timeout_response (s_req ss)] ∧ timeout ss = None
       ∧ w_now w0 + 1000 ≤ w_now w
  else out = [] ∧ timeout ss = Some (w_now w0 + 1000).

(** ** Base64 without its padding, for the proofs *)

(** The six-bit values of a byte sequence. *)
Fixpoint to_sextets (bs : list N) : list N :=
  match bs with
  | [] => []
  | [a] => [a / 4; a mod 4 * 16]%N
  | [a; b] => [a / 4; a mod 4 * 16 + b / 16; b mod 16 * 4]%N
  | a :: b :: c :: rest =>
      (a / 4 :: a mod 4 * 16 + b / 16 :: b mod 16 * 4 + c / 64 :: c mod 64
       :: to_sextets rest)%N
  end.

(** What the encoder makes of one byte of a binary string: a byte above
    127 is a character above U+007F and takes two bytes. *)
Definition reencoded (b : byte) : list byte :=
  if (Byte.to_N b <? 128)%N then [b]
  else [byte_of_N (N.lor 0xC0 (N.shiftr (Byte.to_N b) 6));
        byte_of_N (N.lor 0x80 (N.land (Byte.to_N b) 0x3F))].

(** ** [sanitize] *)

Module Sanitize.

Local Open Scope N_scope.

(** The class of [illegalRe]: slash, question mark, angle brackets,
    backslash, colon, star, bar, double quote and space. *)
Definition illegal (c : N) : bool :=
  (c =? 47) || (c =? 63) || (c =? 60) || (c =? 62) || (c =? 92)
  || (c =? 58) || (c =? 42) || (c =? 124) || (c =? 34) || (c =? 32).

(** The class of [controlRe]: [\x00-\x1f] and [\x80-\x9f]. *)
Definition control (c : N) : bool :=
  (c <=? 0x1f) || ((0x80 <=? c) && (c <=? 0x9f)).

(** [s.replace(re, replacement)] for a global regex that is one character
    class. The replacement is put in as it is: it holds no [$]. *)
Definition replace_class (class : N → bool) (replacement s : jsstring) : jsstring :=
  flat_map (λ c, if class c then replacement else [c]) s.

(** [reservedRe], [/^\.+$/]: one or more dots and nothing else. *)
Definition all_dots (s : jsstring) : bool :=
  match s with
  | [] => false
  | _ => forallb (λ c, c =? 46) s
  end.

(** A character as the flag [i] compares it: only the letters A-Z have
    another case here, the letters of the pattern being ASCII. *)
Definition lower (c : N) : N := if (65 <=? c) && (c <=? 90) then c + 32 else c.

Definition is_digit (c : N) : bool := (48 <=? c) && (c <=? 57).

(** What [.] does not match. *)
Definition line_terminator (c : N) : bool :=
  (c =? 10) || (c =? 13) || (c =? 0x2028) || (c =? 0x2029).

(** The names of [windowsReservedRe] on a whole string: [con], [prn],
    [aux], [nul], and [com] or [lpt] with one digit. *)
Definition reserved_name (name : jsstring) : bool :=
  match name with
  | [a; b; c] =>
      bool_decide ([lower a; lower b; lower c]
                   ∈ [str "con"; str "prn"; str "aux"; str "nul"])
  | [a; b; c; d] =>
      bool_decide ([lower a; lower b; lower c] ∈ [str "com"; str "lpt"])
      && is_digit d
  | _ => false
  end.

(** The rest of [windowsReservedRe] on a whole string: nothing, or a dot
    and then any characters that [.] matches, to the end. *)
Definition reserved_tail (tail : jsstring) : bool :=
  match tail with
  | [] => true
  | c :: rest => (c =? 46) && forallb (λ x, negb (line_terminator x)) rest
  end.

(** [windowsReservedRe]: a name of three or of four characters, then the
    tail. *)
Definition windows_reserved (s : jsstring) : bool :=
  (reserved_name (take 3 s) && reserved_tail (drop 3 s))
  || (reserved_name (take 4 s) && reserved_tail (drop 4 s)).

(** A regex anchored at both ends replaces the whole string or nothing. *)
Definition replace_whole (matches : jsstring → bool) (replacement s : jsstring) : jsstring :=
  if matches s then replacement else s.

Definition dot_or_space (c : N) : bool := (c =? 46) || (c =? 32).

(** [windowsTrailingRe], [/[\. ]+$/]: the first place from which only dots
    and spaces follow, to the end. *)
Fixpoint replace_trailing (replacement s : jsstring) : jsstring :=
  match s with
  | [] => []
  | c :: rest =>
      if forallb dot_or_space (c :: rest) then replacement
      else c :: replace_trailing replacement rest
  end.

(** The replacements, before the result is cut. *)
Definition replaced (input replacement : jsstring) : jsstring :=
  replace_trailing replacement
    (replace_whole windows_reserved replacement
       (replace_whole all_dots replacement
          (replace_class control replacement
             (replace_class illegal replacement input)))).

(** The inner [sanitize(input, replacement)]. *)
Definition sanitize (input : JsVal) (replacement : jsstring) : Exn + jsstring :=
  match input with
  | VStr input => inr (take 200 (replaced input replacement))
  | VNum _ => inl (JsError "Error")
  end.

End Sanitize.

(** The exported [sanitize]: [input => sanitize(input, '_')]. *)
Definition sanitize (input : JsVal) : Exn + jsstring := Sanitize.sanitize input (str "_").

(** The last character is a dot or a space. *)
Definition ends_dot_or_space (s : jsstring) : bool :=
  match last s with
  | Some c => Sanitize.dot_or_space c
  | None => false
  end.

(** A character that none of the two classes of [sanitize] replaces. *)
Definition safe_char (c : N) : Prop :=
  Sanitize.illegal c = false ∧ Sanitize.control c = false.

(** A name that [sanitize] has nothing to do on. *)
Definition clean_name (s : jsstring) : Prop :=
  Forall safe_char s
  ∧ Sanitize.all_dots s = false
  ∧ Sanitize.windows_reserved s = false
  ∧ ends_dot_or_space s = false.

(** Every handle of the cache was issued by the counter: it is positive
    and not above [Cache.nextHandle]. *)
Definition issued (σ : State) : Prop :=
  0 ≤ nextHandle σ ∧ ∀ h so, store σ !! h = Some so → 0 < h ≤ nextHandle σ.

(** An event in which the run of [onMessage] itself does nothing. *)
Definition passive (ev : Event) : bool :=
  match ev with
  | Elapse _ | Interleave _ => true
  | Settle _ | TimerFires => false
  end.

(** The routes of a list whose patterns have [k] variables, in the order
    of the list. *)
Definition with_var_count (k : Z) (routes : list Route) : list Route :=
  filter (λ route, __matchVarCount route = k) routes.

(** ** Well-formed strings *)

(** A code point that UTF-8 encodes: not a surrogate, at most U+10FFFF. *)
Definition scalar (cp : N) : Prop :=
  (cp < 0xD800 ∨ 0xE000 ≤ cp < 0x110000)%N.

(** A string of 16-bit units in which every surrogate is part of a pair. *)
Fixpoint well_formed (s : jsstring) : bool :=
  match s with
  | [] => true
  | c :: rest =>
      if Utf8.is_high_surrogate c then
        match rest with
        | d :: rest' => Utf8.is_low_surrogate d && well_formed rest'
        | [] => false
        end
      else negb (Utf8.is_low_surrogate c) && (c <? 0x10000)%N && well_formed rest
  end.

(** A string without the byte order mark U+FEFF in front. *)
Definition without_bom (s : jsstring) : jsstring :=
  match s with
  | 0xFEFF%N :: rest => rest
  | _ => s
  end.

(** The cache is the given one: same entries, same counter. *)
Definition cache_is (entries : gmap Z StoredObject) (counter : Z) (σ : State) : Prop :=
  store σ = entries ∧ nextHandle σ = counter.

(** * Properties *)

(** ** The platform functions on examples *)

Example encode_brackets : stringToUtf8Array (str "[]") = [Byte.x5b; Byte.x5d].
Proof. reflexivity. Qed.

Example encode_e_acute : stringToUtf8Array [0xE9%N] = [Byte.xc3; Byte.xa9].
Proof. reflexivity. Qed.

Example decode_e_acute : utf8ArrayToString [Byte.xc3; Byte.xa9] = [0xE9%N].
Proof. reflexivity. Qed.

Example decode_lone_byte : utf8ArrayToString [Byte.xe9; Byte.x41] = [0xFFFD%N; 0x41%N].
Proof. reflexivity. Qed.

Example cache_store_twice :
  let '(σ1, h1) := Cache.storeObject (str "/a") 1%positive initial in
  let '(σ2, h2) := Cache.storeObject (str "/b") 2%positive σ1 in
  (h1, h2, store σ2 !! 1, store σ2 !! 3)
  = (inr 1, inr 2, Some {| so_path := str "/a"; so_object := 1%positive |}, None).
Proof. reflexivity. Qed.

Example btoa_hello : Base64.btoa (str "hello") = inr (str "aGVsbG8=").
Proof. reflexivity. Qed.

Example atob_hello : Base64.atob (str "aGVs bG8=") = inr (str "hello").
Proof. reflexivity. Qed.

Example atob_unpadded : Base64.atob (str "aGVsbG8") = inr (str "hello").
Proof. reflexivity. Qed.

Example atob_bad_length : Base64.atob (str "aGVsb") = inl (JsError "InvalidCharacterError").
Proof. reflexivity. Qed.

Example btoa_e_acute : Base64.btoa [0xE9%N] = inr (str "6Q==").
Proof. reflexivity. Qed.

(** ** Synchronous steps of the handlers *)

(** Unfolds a handler and the monad of its synchronous code, and nothing
    of the maps underneath. *)
Ltac run_sync :=
  cbv beta iota zeta delta
    [getattr open read write release truncate continue fst snd
     async await bind ret throw lift alloc deref assign toUtf8Array call_setData
     Cache.storeObject Cache.getObjectForHandle Cache.setObjectForHandle
     Cache.removeObjectForHandle Cache.setObjectForPath];
  cbn [heap store nextHandle].

Lemma slice_from (bs : list byte) (offset size : Z) :
  0 ≤ offset → 0 ≤ size →
  U8.slice bs offset (offset + size)
  = take (Z.to_nat size) (drop (Z.to_nat offset) bs).
Proof.
  intros Ho Hs. unfold U8.slice, U8.clamp.
  destruct (Z.ltb_spec offset 0); [lia|].
  destruct (Z.ltb_spec (offset + size) 0); [lia|].
  remember (Z.of_nat (length bs)) as len eqn:Hlen.
  destruct (Z.le_gt_cases offset len) as [Hle|Hgt].
  - rewrite (Z.min_l offset len) by lia.
    destruct (Z.le_gt_cases (offset + size) len).
    + rewrite Z.min_l by lia. f_equal. lia.
    + rewrite Z.min_r by lia.
      rewrite !take_ge; [reflexivity | rewrite length_drop; lia | rewrite length_drop; lia ].
  - rewrite (Z.min_r offset len), (Z.min_r (offset + size) len) by lia.
    rewrite !drop_ge by lia. by rewrite !take_nil.
Qed.


(** ** The text encoder on binary strings *)

Lemma byte_of_to_N (b : byte) : byte_of_N (Byte.to_N b) = b.
Proof.
  unfold byte_of_N. pose proof (Byte.to_N_bounded b).
  rewrite N.mod_small by lia. by rewrite Byte.of_to_N.
Qed.

Lemma code_points_binary (arr : list byte) :
  Utf8.code_points (fromCharCode arr) = fromCharCode arr.
Proof.
  induction arr as [|b arr IH]; [done|].
  cbn [fromCharCode map Utf8.code_points]. fold (fromCharCode arr).
  pose proof (Byte.to_N_bounded b) as Hb.
  unfold Utf8.is_high_surrogate, Utf8.is_low_surrogate.
  destruct (N.leb_spec 0xD800 (Byte.to_N b)); [lia|].
  destruct (N.leb_spec 0xDC00 (Byte.to_N b)); [lia|].
  cbn [andb]. by rewrite IH.
Qed.

Lemma encode_binary (arr : list byte) :
  stringToUtf8Array (fromCharCode arr) = flat_map reencoded arr.
Proof.
  unfold stringToUtf8Array, Utf8.encode. rewrite code_points_binary.
  induction arr as [|b arr IH]; [done|].
  cbn [fromCharCode map flat_map]. fold (fromCharCode arr). rewrite IH. f_equal.
  unfold Utf8.encode_cp, reencoded. pose proof (Byte.to_N_bounded b) as Hb.
  destruct (N.ltb_spec (Byte.to_N b) 0x80); [by rewrite byte_of_to_N|].
  by destruct (N.ltb_spec (Byte.to_N b) 0x800); [|lia].
Qed.


(** ** The heap and the cache *)

Lemma fresh_loc_new (σ : State) : heap σ !! fresh (dom (heap σ)) = None.
Proof. apply not_elem_of_dom, is_fresh. Qed.

Lemma contents_alloc (σ : State) (bs : list byte) (l : loc) :
  l ∈ dom (heap σ) →
  <[fresh (dom (heap σ)) := bs]> (heap σ) !! l = heap σ !! l.
Proof.
  intros Hl. apply lookup_insert_ne. intros Heq. subst l. by apply is_fresh in Hl.
Qed.

Lemma js_incr_exact (n : Z) : n < 2 ^ 53 → js_incr n = n + 1.
Proof. intros H. unfold js_incr. destruct (Z.ltb_spec n (2 ^ 53)); [done | lia]. Qed.


(** ** [open] and [read] *)

Lemma open_awaits getData (req : Req) :
  ∃ k, ∀ σ, open getData req σ = (σ, Await (CallGet getData req) k).
Proof. eexists. intros σ. reflexivity. Qed.

Lemma open_undefined getData (req : Req) (σ0 σ : State) :
  continue (snd (open getData req σ0)) (Resolved None) σ
  = (σ, Raise (UnixError unix.ENOENT)).
Proof. reflexivity. Qed.

Lemma open_rejected getData (req : Req) (σ0 σ : State) (e : Exn) :
  continue (snd (open getData req σ0)) (Rejected e) σ = (σ, Raise e).
Proof. reflexivity. Qed.








(** ** [getattr] *)

(** C7. [getattr] asks the read accessor on every call; on [undefined] it
    fails with ENOENT; otherwise it returns a regular file with the read
    bits 0444, the write bits 0222 exactly when a write accessor was given,
    one link, and the number of bytes of the contents as its size. A
    read-only route whose accessor returns ["[]"] gives mode
    0100444, one link and size 2. *)
Theorem C7_getattr_metadata getData (setData : option Accessor) (req : Req) (σ0 : State) :
  (∃ k, getattr getData setData req σ0 = (σ0, Await (CallGet getData req) k))
  ∧ (∀ σ, continue (snd (getattr getData setData req σ0)) (Resolved None) σ
          = (σ, Raise (UnixError unix.ENOENT)))
  ∧ (∀ σ c, ∃ σ' mode,
        continue (snd (getattr getData setData req σ0)) (Resolved (Some c)) σ
        = (σ', Done {[ "st_mode" := VNum mode; "st_nlink" := VNum 1;
                       "st_size" := VNum (zlength (bytes_of σ c)) ]})
        ∧ store σ' = store σ
        ∧ Z.land mode unix.S_IFMT = unix.S_IFREG
        ∧ Z.land mode 0x124 = 0x124
        ∧ (Z.land mode 0x92 = 0x92 ↔ is_Some setData)
        ∧ Z.land mode 0x92 = match setData with Some _ => 0x92 | None => 0 end)
  ∧ (∀ σ, ∃ σ',
        continue (snd (getattr getData None req σ0))
                 (Resolved (Some (CString (str "[]")))) σ
        = (σ', Done {[ "st_mode" := VNum 0x8124 (* 0100444 *);
                       "st_nlink" := VNum 1; "st_size" := VNum 2 ]})).
Proof.
  split; [eexists; reflexivity|]. split; [reflexivity|]. split.
  - intros σ c.
    destruct c as [s|l], setData as [f|]; run_sync; unfold contents; cbn [heap];
      rewrite ?lookup_insert_eq; cbn [default];
      do 2 eexists; (split; [reflexivity|]); (split; [reflexivity|]);
      (split; [reflexivity|]); (split; [reflexivity|]);
      (split; [|reflexivity]);
      (split; [intros; try done; by eexists | intros Hs; try done; by destruct Hs]).
  - intros σ. run_sync. rewrite lookup_insert_eq. eexists. reflexivity.
Qed.

(** ** Typed arrays *)

Lemma make_zeros (n : Z) : 0 ≤ n → U8.make n = inr (replicate (Z.to_nat n) Byte.x00).
Proof. intros Hn. unfold U8.make. by destruct (Z.ltb_spec n 0); [lia|]. Qed.

Lemma slice_prefix (bs : list byte) (n : Z) :
  0 ≤ n → U8.slice bs 0 n = take (Z.to_nat n) bs.
Proof. intros Hn. exact (slice_from bs 0 n (Z.le_refl 0) Hn). Qed.

Lemma set_inr (target src : list byte) (offset : Z) :
  0 ≤ offset → offset + zlength src ≤ zlength target →
  U8.set target src offset
  = inr (take (Z.to_nat offset) target ++ src
         ++ drop (Z.to_nat offset + length src) target).
Proof.
  intros Ho Hfit. unfold U8.set, zlength in *.
  destruct (Z.ltb_spec offset 0); [lia|].
  by destruct (Z.ltb_spec (Z.of_nat (length target))
                 (offset + Z.of_nat (length src))); [lia|].
Qed.

Lemma set_at_start (n : nat) (pre : list byte) :
  (length pre ≤ n)%nat →
  U8.set (replicate n Byte.x00) pre 0
  = inr (pre ++ replicate (n - length pre) Byte.x00).
Proof.
  intros Hn. rewrite set_inr; [|done|unfold zlength; rewrite length_replicate; lia].
  cbn [Z.to_nat take Nat.add app]. by rewrite drop_replicate.
Qed.



Lemma write_in_place (bytes bufarr : list byte) (offset : Z) :
  0 ≤ offset → offset + zlength bufarr ≤ zlength bytes →
  U8.set bytes bufarr offset = inr (written bytes bufarr offset).
Proof.
  intros Ho Hfit. rewrite set_inr by done. unfold written, zlength in *.
  replace (Z.to_nat offset - length bytes)%nat with 0%nat by lia. done.
Qed.

Lemma write_grown (bytes bufarr : list byte) (offset : Z) :
  0 ≤ offset → zlength bytes < offset + zlength bufarr →
  ∃ zeros kept,
    U8.make (offset + zlength bufarr) = inr zeros
    ∧ U8.set zeros (U8.slice bytes 0 (Z.min offset (zlength bytes))) 0 = inr kept
    ∧ U8.set kept bufarr offset = inr (written bytes bufarr offset).
Proof.
  intros Ho Hgrow. unfold zlength in *.
  do 2 eexists. split; [apply make_zeros; lia|].
  rewrite slice_prefix by lia. split.
  { apply set_at_start. rewrite length_take. lia. }
  rewrite set_inr; [|done|].
  2:{ unfold zlength. rewrite length_app, length_take, length_replicate. lia. }
  unfold written. f_equal.
  rewrite take_app, take_take, length_take, take_replicate.
  rewrite drop_app, (drop_ge (take _ _)), drop_replicate, (drop_ge bytes);
    [|lia|rewrite length_take; lia].
  rewrite length_take.
  replace (Z.to_nat offset `min` Z.to_nat (offset `min` Z.of_nat (length bytes)))%nat
    with (Z.to_nat offset `min` length bytes)%nat by lia.
  rewrite <- (take_take bytes), (take_ge bytes (length bytes)) by lia.
  replace (take (Z.to_nat offset) bytes) with
    (take (Z.to_nat offset `min` length bytes) bytes)
    by (rewrite <- (take_take bytes), (take_ge bytes (length bytes)); [done|lia]).
  rewrite <- app_assoc.
  match goal with
  | |- context [replicate ?a _ ++ bufarr ++ [] ++ replicate ?b _] =>
      replace a with (Z.to_nat offset - length bytes)%nat by lia;
      replace b with 0%nat by lia
  end.
  done.
Qed.

(** ** [write] *)

Lemma write_effect (setData : option Accessor) (req : Req) (σ : State) (so : StoredObject) :
  store σ !! req_fh req = Some so → 0 ≤ req_offset req →
  let bufarr := stringToUtf8Array (default [] (req_buf req)) in
  let new := written (contents σ (so_object so)) bufarr (req_offset req) in
  ∃ σ',
    write setData req σ
    = (σ', match setData with
           | Some f => await (CallSet f req (utf8ArrayToString new))
                        (λ _, ret (Done {[ "size" := VNum (zlength bufarr) ]}))
           | None => Raise (JsError "TypeError")
           end)
    ∧ buffer σ' (req_fh req) = Some new
    ∧ nextHandle σ' = nextHandle σ
    ∧ ∀ h, h ≠ req_fh req → store σ' !! h = store σ !! h.
Proof.
  intros Hso Ho bufarr new. run_sync. rewrite Hso. cbn [so_object].
  fold bufarr. fold (contents σ (so_object so)).
  destruct (Z.gtb_spec (req_offset req + zlength bufarr)
              (zlength (contents σ (so_object so)))) as [Hgrow|Hfit].
  - destruct (write_grown (contents σ (so_object so)) bufarr (req_offset req))
      as (zeros & kept & Hz & Hk & Hw); [done|lia|].
    fold new in Hw. rewrite Hz, Hk. cbn [heap store nextHandle].
    rewrite Hso. cbn [heap store nextHandle].
    rewrite !lookup_insert_eq. cbn [default from_option id]. rewrite Hw.
    destruct setData; eexists; (split; [reflexivity|]);
      unfold buffer, contents; cbn [heap store nextHandle];
      repeat (rewrite lookup_insert_eq; cbn [so_object default from_option id]);
      (split; [done|]); (split; [done|]);
      intros h Hh; by rewrite lookup_insert_ne.
  - rewrite write_in_place by (done || lia). fold new.
    destruct setData; eexists; (split; [reflexivity|]);
      unfold buffer, contents; cbn [heap store nextHandle];
      rewrite Hso, lookup_insert_eq; done.
Qed.







(** ** The dispatcher *)

Lemma error_response_id (req : Req) (e : Exn) :
  <["id" := VNum (req_id req)]> (error_response req e)
  = error_message req (error_code e).
Proof. reflexivity. Qed.

Lemma timeout_response_message (req : Req) :
  timeout_response req = error_message req unix.ETIMEDOUT.
Proof. reflexivity. Qed.

Lemma finish_posts (ss : Session) (w : World) (response : Obj) :
  didTimeout ss = false →
  finish ss w response
  = (postMessage w (<["id" := VNum (req_id (s_req ss))]> response),
     {| s_req := s_req ss; s_phase := Completed; didTimeout := false; timeout := None |}).
Proof. intros H. unfold finish. by rewrite H. Qed.

Lemma settle_raise (ss : Session) (w : World) (e : Exn) :
  didTimeout ss = false →
  settle ss w (Raise e)
  = (postMessage w (error_message (s_req ss) (error_code e)),
     {| s_req := s_req ss; s_phase := Completed; didTimeout := false; timeout := None |}).
Proof. intros H. cbn [settle]. by rewrite finish_posts, error_response_id. Qed.

Lemma onMessage_handler (sorted : list Route) (req req' : Req) (w : World)
    (route : Route) (vars : Vars) (handler : Handler) :
  decode_buf req = inr req' →
  tryMatchRoute sorted (req_path req') = inr (route, vars) →
  route_op route (req_op req') = Some handler →
  onMessage sorted req w
  = settle (armed req' (w_now w))
      (with_state w (fst (handler (with_vars req' vars) (w_state w))))
      (snd (handler (with_vars req' vars) (w_state w))).
Proof.
  intros Hd Hm Hh. unfold onMessage. rewrite Hd, Hm, Hh.
  by destruct (handler _ _).
Qed.



(** ** [truncate] *)

Lemma resized_same_length (bytes : list byte) : resized bytes (zlength bytes) = bytes.
Proof.
  unfold resized, zlength. rewrite take_ge by lia.
  replace (Z.to_nat (Z.of_nat (length bytes)) - length bytes)%nat with 0%nat by lia.
  apply app_nil_r.
Qed.

Lemma resize_array (bytes : list byte) (size : Z) :
  0 ≤ size →
  ∃ zeros,
    U8.make size = inr zeros
    ∧ U8.set zeros (U8.slice bytes 0 (Z.min size (zlength bytes))) 0
      = inr (resized bytes size).
Proof.
  intros Hs. eexists. split; [by apply make_zeros|]. unfold zlength.
  rewrite slice_prefix by lia.
  rewrite set_at_start by (rewrite length_take; lia).
  unfold resized. rewrite length_take. f_equal. f_equal.
  - replace (Z.to_nat (size `min` Z.of_nat (length bytes)))
      with (Z.to_nat size `min` length bytes)%nat by lia.
    by rewrite <- take_take, (take_ge bytes (length bytes)).
  - f_equal. lia.
Qed.



Lemma truncate_effect getData (setData : option Accessor) (req : Req)
    (σ0 σ : State) (c : Contents) :
  0 ≤ req_size req →
  let new := resized (bytes_of σ c) (req_size req) in
  ∃ σ' arr,
    continue (snd (truncate getData setData req σ0)) (Resolved (Some c)) σ
    = (σ', match setData with
           | Some f => await (CallSet f req (utf8ArrayToString new)) (λ _, ret (Done ∅))
           | None => Raise (JsError "TypeError")
           end)
    ∧ contents σ' arr = new
    ∧ store σ' = repointed (req_path req) arr <$> store σ
    ∧ nextHandle σ' = nextHandle σ
    ∧ ∀ l, l ∈ dom (heap σ) → heap σ' !! l = heap σ !! l.
Proof.
  intros Hs new.
  assert (Hfresh2 : ∀ (m : gmap loc (list byte)) bs1 bs2 l,
             l ∈ dom m → <[fresh (dom m) := bs2]> (<[fresh (dom m) := bs1]> m) !! l = m !! l).
  { intros m bs1 bs2 l Hl.
    assert (fresh (dom m) ≠ l) by (intros Heq; subst l; by apply is_fresh in Hl).
    by rewrite !lookup_insert_ne. }
  destruct c as [s|l]; run_sync; unfold contents in *; cbn [bytes_of] in new;
    rewrite ?lookup_insert_eq; cbn [default from_option id].
  - fold (resized (stringToUtf8Array s) (req_size req)) in new.
    destruct (decide (req_size req ≠ zlength (stringToUtf8Array s))) as [Hne|Heq].
    + destruct (resize_array (stringToUtf8Array s) (req_size req) Hs) as (zeros & Hz & Hk).
      rewrite Hz, Hk. fold new. cbn [heap store nextHandle].
      rewrite !lookup_insert_eq. cbn [default from_option id].
      set (heap1 := <[fresh (dom (heap σ)) := stringToUtf8Array s]> (heap σ)).
      exists {| heap := <[fresh (dom heap1) := new]> (<[fresh (dom heap1) := zeros]> heap1);
                store := repointed (req_path req) (fresh (dom heap1)) <$> store σ;
                nextHandle := nextHandle σ |}, (fresh (dom heap1)).
      split; [by destruct setData|]. cbn [heap store nextHandle].
      rewrite lookup_insert_eq. split; [done|]. split; [done|]. split; [done|].
      intros l Hl. rewrite Hfresh2 by (subst heap1; rewrite dom_insert_L; set_solver).
      subst heap1. by apply contents_alloc.
    + apply dec_stable in Heq. cbn [heap store nextHandle].
      rewrite !lookup_insert_eq. cbn [default from_option id].
      exists {| heap := <[fresh (dom (heap σ)) := stringToUtf8Array s]> (heap σ);
                store := repointed (req_path req) (fresh (dom (heap σ))) <$> store σ;
                nextHandle := nextHandle σ |}, (fresh (dom (heap σ))).
      assert (Hnew : new = stringToUtf8Array s)
        by (subst new; rewrite Heq; apply resized_same_length).
      rewrite Hnew. split; [by destruct setData|]. cbn [heap store nextHandle].
      rewrite lookup_insert_eq. split; [done|]. split; [done|]. split; [done|].
      intros l Hl. by apply contents_alloc.
  - set (bytes := default [] (heap σ !! l)) in *.
    destruct (decide (req_size req ≠ zlength bytes)) as [Hne|Heq].
    + destruct (resize_array bytes (req_size req) Hs) as (zeros & Hz & Hk).
      rewrite Hz, Hk. fold new. cbn [heap store nextHandle].
      rewrite !lookup_insert_eq. cbn [default from_option id].
      exists {| heap := <[fresh (dom (heap σ)) := new]>
                          (<[fresh (dom (heap σ)) := zeros]> (heap σ));
                store := repointed (req_path req) (fresh (dom (heap σ))) <$> store σ;
                nextHandle := nextHandle σ |}, (fresh (dom (heap σ))).
      split; [by destruct setData|]. cbn [heap store nextHandle].
      rewrite lookup_insert_eq. split; [done|]. split; [done|]. split; [done|].
      intros l' Hl'. by apply Hfresh2.
    + apply dec_stable in Heq. cbn [heap store nextHandle].
      assert (Hnew : new = bytes)
        by (subst new; rewrite Heq; apply resized_same_length).
      rewrite Hnew. fold bytes.
      exists {| heap := heap σ;
                store := repointed (req_path req) l <$> store σ;
                nextHandle := nextHandle σ |}, l.
      split; [by destruct setData|]. cbn [heap store nextHandle]. done.
Qed.



(** After a [truncate] the handles of the path hold one and the same
    array: a [write] through one of them that does not grow it is read
    through the other. *)
Example truncate_shares_one_array :
  let sorted := [tabs_route (Some "setTabs")] in
  let opening := request 1 "open" "/tabs.json" in
  let hello := Resolved (Some (CString (str "hello"))) in
  let w2 := answered sorted opening [hello] (answered sorted opening [hello] world0) in
  let w3 := answered sorted (request_fh 3 "truncate" "/tabs.json" 0 0 5 None)
              [hello; Resolved None] w2 in
  let w4 := answered sorted (request_fh 4 "write" "/tabs.json" 1 0 0 (Some (str "Sg==")))
              [Resolved None] w3 in
  buffer (w_state w4) 1 = Some (stringToUtf8Array (str "Jello"))
  ∧ buffer (w_state w4) 2 = Some (stringToUtf8Array (str "Jello")).
Proof. split; reflexivity. Qed.

(** ** [release] and handles that are gone *)

Lemma js_incr_above (n h : Z) : h ≤ n → h < 2 ^ 53 → h < js_incr n ∨ (h ≠ js_incr n ∧ js_incr n = n).
Proof.
  intros Hh Hb. unfold js_incr. destruct (Z.ltb_spec n (2 ^ 53)); [left|right]; lia.
Qed.

Lemma read_unknown_handle (req : Req) (σ : State) :
  store σ !! req_fh req = None → read req σ = (σ, Raise (JsError "TypeError")).
Proof. intros H. run_sync. by rewrite H. Qed.

Lemma write_unknown_handle (setData : option Accessor) (req : Req) (σ : State) :
  store σ !! req_fh req = None → write setData req σ = (σ, Raise (JsError "TypeError")).
Proof. intros H. run_sync. by rewrite H. Qed.

Lemma release_removes (req : Req) (σ : State) :
  release req σ
  = ({| heap := heap σ; store := delete (req_fh req) (store σ);
        nextHandle := nextHandle σ |}, Done ∅).
Proof. reflexivity. Qed.

Lemma content_route_keeps_gone getData setData (name : jsstring) (handler : Handler) (h : Z) :
  makeRouteWithContents getData setData name = Some handler →
  handler_keeps (gone h) handler.
Proof.
  unfold makeRouteWithContents. intros Hh.
  repeat case_decide; simplify_eq; intros req σ (Hnone & Hle & Hb).
  - (* getattr *)
    split; [done|]. run_sync. once constructor. intros s σ1 (Hnone1 & Hle1 & Hb1).
    destruct s as [[[s|l]|]|e]; cbn [fst snd heap store nextHandle];
      (split; [done | once constructor]).
  - (* open *)
    split; [done|]. run_sync. once constructor. intros s σ1 (Hnone1 & Hle1 & Hb1).
    assert (Hfresh : ∀ hp so, gone h {| heap := hp;
                store := <[js_incr (nextHandle σ1) := so]> (store σ1);
                nextHandle := js_incr (nextHandle σ1) |}).
    { intros hp so.
      destruct (js_incr_above (nextHandle σ1) h Hle1 Hb1) as [Hlt|[Hne Heq]];
        (split; [cbn [store]; rewrite lookup_insert_ne by lia; done | cbn [nextHandle]; lia]). }
    destruct s as [[[s|l]|]|e]; cbn [fst snd heap store nextHandle];
      (split; [| by constructor]); first [apply Hfresh | done].
  - (* read *)
    run_sync. destruct (store σ !! req_fh req); cbn [fst snd]; (split; [done | once constructor]).
  - (* write *)
    run_sync. destruct (store σ !! req_fh req) as [so|] eqn:Hso;
      [|cbn [fst snd]; split; [done | once constructor]].
    assert (Hne : req_fh req ≠ h) by congruence.
    assert (Hkept : ∀ hp, gone h {| heap := hp; store := store σ; nextHandle := nextHandle σ |})
      by (intros hp; split; done).
    assert (Hset : ∀ hp so', gone h {| heap := hp;
                store := <[req_fh req := so']> (store σ); nextHandle := nextHandle σ |})
      by (intros hp so'; split; [cbn [store]; by rewrite lookup_insert_ne | done]).
    assert (Hσ : gone h σ) by (split; done).
    clear Hnone Hle Hb Hso.
    repeat case_match; simplify_eq; cbn [fst snd heap store nextHandle];
      (split; [first [apply Hset | apply Hkept | exact Hσ] |]);
      try (by constructor);
      (apply keeps_await; intros s' σ1 HI; destruct s'; cbn [fst snd];
       (split; [done | by constructor])).
  - (* release *)
    split; [|by constructor]. run_sync.
    split; [cbn [store]|done]. destruct (decide (req_fh req = h)) as [->|Hne].
    + apply lookup_delete_eq.
    + by rewrite lookup_delete_ne.
  - (* truncate *)
    split; [done|]. run_sync. once constructor. intros s σ1 (Hnone1 & Hle1 & Hb1).
    destruct s as [[c|]|e]; [| cbn [fst snd]; split; [done | once constructor] ..].
    assert (Hpath : ∀ hp p arr, gone h {| heap := hp;
                store := (λ so, if decide (so_path so = p)
                                then {| so_path := so_path so; so_object := arr |}
                                else so) <$> store σ1;
                nextHandle := nextHandle σ1 |})
      by (intros hp p arr; split; [cbn [store]; by rewrite lookup_fmap, Hnone1 | done]).
    assert (Hkept : ∀ hp, gone h {| heap := hp; store := store σ1;
                                    nextHandle := nextHandle σ1 |})
      by (intros hp; split; done).
    assert (Hσ : gone h σ1) by (split; done).
    clear Hnone1 Hle1 Hb1.
    destruct c as [s|l]; cbn [fst snd heap store nextHandle];
      repeat case_match; simplify_eq; cbn [fst snd heap store nextHandle];
      (split; [first [apply Hpath | apply Hkept | exact Hσ] |]);
      try (by constructor);
      (apply keeps_await; intros s' σ2 HI; destruct s'; cbn [fst snd];
       (split; [done | by constructor])).
Qed.

(** C9, as stated, fails: a [release] of a handle that was released
    before is answered with a success, not with an error. *)
Lemma C9_counterexample :
  let sorted := [tabs_route None] in
  let w1 := answered sorted (request 1 "open" "/tabs.json")
              [Resolved (Some (CString (str "hello")))] world0 in
  let releasing := request_fh 2 "release" "/tabs.json" 1 0 0 None in
  let w2 := answered sorted releasing [] w1 in
  let again := request_fh 3 "release" "/tabs.json" 1 0 0 None in
  store (w_state w1) !! 1 = Some {| so_path := str "/tabs.json"; so_object := 1%positive |}
  ∧ store (w_state w2) !! 1 = None
  ∧ ∃ response,
      w_port (fst (onMessage sorted again w2)) = w_port w2 ++ [response]
      ∧ response = {[ "id" := VNum 3; "op" := VStr (str "release") ]}
      ∧ response !! "error" = None.
Proof.
  intros sorted w1 releasing w2 again.
  split; [reflexivity|]. split; [reflexivity|].
  eexists. split; [reflexivity|]. split; reflexivity.
Qed.

(** C9, amended. [release] removes the cache entry of its handle and is
    answered with a success, whether or not the handle was in the cache. A
    [read] or a [write] on a handle that is not in the cache is answered
    with the error EIO and no data, and leaves the state as it was. Every
    operation of a content route leaves a released handle out of the
    cache: its number is not issued again. *)
Theorem C9_released_handle_refuses_read_and_write
    (sorted : list Route) (route : Route) (vars : Vars) getData setData
    (req req' : Req) (w : World) :
  decode_buf req = inr req' →
  tryMatchRoute sorted (req_path req') = inr (route, vars) →
  route_op route = makeRouteWithContents getData setData →
  (req_op req' = str "release" →
     ∃ w' ss',
       onMessage sorted req w = (w', ss')
       ∧ store (w_state w') = delete (req_fh req') (store (w_state w))
       ∧ store (w_state w') !! req_fh req' = None
       ∧ w_port w' = w_port w
                     ++ [{[ "id" := VNum (req_id req'); "op" := VStr (req_op req') ]}])
  ∧ (store (w_state w) !! req_fh req' = None →
     req_op req' = str "read" ∨ req_op req' = str "write" →
     ∃ ss',
       onMessage sorted req w = (postMessage w (error_message req' unix.EIO), ss')
       ∧ s_phase ss' = Completed
       ∧ error_message req' unix.EIO !! "buf" = None)
  ∧ (∀ handle name handler,
       makeRouteWithContents getData setData name = Some handler →
       handler_keeps (gone handle) handler).
Proof.
  intros Hd Hm Hops. split; [|split].
  - intros Hop.
    rewrite (onMessage_handler sorted req req' w route vars release Hd Hm)
      by (rewrite Hops, Hop; reflexivity).
    rewrite release_removes. cbn [fst snd settle]. unfold after_handler.
    rewrite lookup_insert_ne by done. rewrite lookup_empty.
    rewrite finish_posts by reflexivity.
    do 2 eexists. split; [reflexivity|]. cbn [w_state with_state postMessage store].
    split; [reflexivity|]. split; [apply lookup_delete_eq|]. reflexivity.
  - intros Hnone [Hop|Hop].
    + rewrite (onMessage_handler sorted req req' w route vars read Hd Hm)
        by (rewrite Hops, Hop; reflexivity).
      rewrite read_unknown_handle by done. cbn [fst snd].
      rewrite settle_raise by reflexivity.
      eexists. split; [by destruct w|]. split; reflexivity.
    + rewrite (onMessage_handler sorted req req' w route vars (write setData) Hd Hm)
        by (rewrite Hops, Hop; reflexivity).
      rewrite write_unknown_handle by done. cbn [fst snd].
      rewrite settle_raise by reflexivity.
      eexists. split; [by destruct w|]. split; reflexivity.
  - intros handle name handler. apply content_route_keeps_gone.
Qed.

Lemma C9_witness :
  let sorted := [tabs_route None] in
  let w1 := answered sorted (request 1 "open" "/tabs.json")
              [Resolved (Some (CString (str "hello")))] world0 in
  let w2 := answered sorted (request_fh 2 "release" "/tabs.json" 1 0 0 None) [] w1 in
  let reading := request_fh 3 "read" "/tabs.json" 1 0 5 None in
  store (w_state w2) !! 1 = None
  ∧ ∃ ss', onMessage sorted reading w2
           = (postMessage w2 (error_message reading unix.EIO), ss').
Proof.
  intros sorted w1 w2 reading. split; [reflexivity|].
  destruct (C9_released_handle_refuses_read_and_write sorted (tabs_route None) []
              "getTabs" None reading reading w2 eq_refl eq_refl eq_refl)
    as (_ & Hrefused & _).
  destruct (Hrefused eq_refl (or_introl eq_refl)) as (ss' & Hrun & _).
  by exists ss'.
Defined.

(** ** Route resolution *)

Lemma insert_route_perm (a : Route) (l : list Route) : insert_route a l ≡ₚ a :: l.
Proof.
  induction l as [|b l IH]; [done|]. cbn [insert_route].
  destruct (compare_routes a b <=? 0); [done|].
  rewrite IH. apply Permutation_swap.
Qed.

Lemma sort_routes_perm (l : list Route) : sort_routes l ≡ₚ l.
Proof.
  induction l as [|a l IH]; [done|]. cbn [sort_routes].
  by rewrite insert_route_perm, IH.
Qed.

Lemma insert_route_sorted (a : Route) (l : list Route) :
  StronglySorted fewer_vars l → StronglySorted fewer_vars (insert_route a l).
Proof.
  induction 1 as [|b l Hl IH Hb]; cbn [insert_route].
  { repeat constructor. }
  unfold compare_routes. destruct (Z.leb_spec (__matchVarCount a - __matchVarCount b) 0).
  - constructor; [by constructor|].
    constructor; [unfold fewer_vars; lia|].
    eapply Forall_impl; [exact Hb|]. unfold fewer_vars. intros c Hc. lia.
  - constructor; [exact IH|].
    rewrite insert_route_perm. constructor; [unfold fewer_vars; lia | exact Hb].
Qed.

Lemma sort_routes_sorted (l : list Route) : StronglySorted fewer_vars (sort_routes l).
Proof.
  induction l as [|a l IH]; cbn [sort_routes]; [constructor|].
  by apply insert_route_sorted.
Qed.

Lemma first_match_none (routes : list Route) (path : jsstring) :
  first_match routes path = None ↔ Forall (λ r, __match r path = None) routes.
Proof.
  induction routes as [|r routes IH]; cbn [first_match]; [by split|].
  destruct (__match r path) as [vars|] eqn:E.
  - split; [done|]. intros H. apply Forall_cons in H as [H _]. congruence.
  - rewrite IH. split; [by constructor|]. by intros [_ ?]%Forall_cons.
Qed.

Lemma first_match_some (routes : list Route) (path : jsstring) (route : Route) (vars : Vars) :
  first_match routes path = Some (route, vars) →
  ∃ before after,
    routes = before ++ route :: after
    ∧ __match route path = Some vars
    ∧ Forall (λ r, __match r path = None) before.
Proof.
  induction routes as [|r routes IH]; cbn [first_match]; [done|].
  destruct (__match r path) as [vars'|] eqn:E.
  - intros [= <- <-]. by exists [], routes.
  - intros H. destruct (IH H) as (before & after & -> & Hm & Hnone).
    exists (r :: before), after. split; [done|]. split; [done|]. by constructor.
Qed.

Lemma first_match_found (routes : list Route) (path : jsstring) (r : Route) :
  r ∈ routes → matches path r → is_Some (first_match routes path).
Proof.
  intros Hin Hm. destruct (first_match routes path) eqn:E; [done|].
  apply first_match_none in E. rewrite Forall_forall in E.
  destruct Hm as [vars Hm]. by rewrite E in Hm.
Qed.

Lemma first_match_fewest (routes : list Route) (path : jsstring) (route : Route) (vars : Vars) :
  StronglySorted fewer_vars routes →
  first_match routes path = Some (route, vars) →
  ∀ other, other ∈ routes → matches path other → fewer_vars route other.
Proof.
  intros Hsorted Hfirst other Hin Hm.
  destruct (first_match_some _ _ _ _ Hfirst) as (before & after & -> & Hr & Hnone).
  apply elem_of_app in Hin as [Hin|Hin].
  - rewrite Forall_forall in Hnone. destruct Hm as [v Hv].
    by rewrite Hnone in Hv.
  - apply elem_of_cons in Hin as [->|Hin]; [unfold fewer_vars; lia|].
    apply StronglySorted_app_1_r in Hsorted.
    apply StronglySorted_inv in Hsorted as [_ Hall].
    rewrite Forall_forall in Hall. by apply Hall.
Qed.

Example sorted_three_routes :
  map __matchVarCount (values three_routes) = [2; 1; 0]
  ∧ map __matchVarCount (sortedRoutes three_routes) = [0; 1; 2].
Proof. split; reflexivity. Qed.

(** C6, as stated, fails in two ways. A path whose last segment begins
    with [._] is refused with ENOTSUP, not ENOENT, when no route matches
    it. And with routes of no, one and two variables that all match
    [/a/b], the pair of the routes of one and of two variables gets neither
    of the two: the route of no variable is returned. *)
Lemma C6_counterexample :
  (first_match (sortedRoutes []) (str "/._x") = None
   ∧ tryMatchRoute (sortedRoutes []) (str "/._x") = inl (UnixError unix.ENOTSUP)
   ∧ unix.ENOTSUP ≠ unix.ENOENT)
  ∧ (__matchVarCount route_y_x = __matchVarCount route_a_x + 1
     ∧ __match route_a_x (str "/a/b") = Some [("X", str "b")]
     ∧ __match route_y_x (str "/a/b") = Some [("Y", str "a"); ("X", str "b")]
     ∧ tryMatchRoute (sortedRoutes three_routes) (str "/a/b") = inr (route_a_b, [])
     ∧ __matchVarCount route_a_b ≠ __matchVarCount route_a_x).
Proof. repeat split; try reflexivity; discriminate. Qed.

(** C6, amended. [sortedRoutes] holds the registered routes in ascending
    order of their count of variables. A path whose last segment begins
    with [._] is refused with ENOTSUP before any route is tried. For any
    other path, resolution returns the first route of that order whose
    pattern matches, with its bindings: no matching route has fewer
    variables than the one returned, so when R1 (k variables) and R2
    (k+1 variables) both match, the result has at most k variables and is
    not R2, and it is R1 when every other matching route has more
    variables than R1; when no route matches, resolution fails with
    ENOENT. *)
Theorem C6_resolution_returns_first_match_of_fewest_variables
    (Routes : RoutesT) (path : jsstring) :
  appleDouble path = false →
  let sorted := sortedRoutes Routes in
  sorted ≡ₚ values Routes
  ∧ StronglySorted fewer_vars sorted
  ∧ (∀ p, appleDouble p = true → tryMatchRoute sorted p = inl (UnixError unix.ENOTSUP))
  ∧ ((∀ route, route ∈ values Routes → __match route path = None) →
       tryMatchRoute sorted path = inl (UnixError unix.ENOENT))
  ∧ (∀ route vars, tryMatchRoute sorted path = inr (route, vars) →
       (∃ before after,
           sorted = before ++ route :: after
           ∧ __match route path = Some vars
           ∧ Forall (λ r, __match r path = None) before)
       ∧ ∀ other, other ∈ values Routes → matches path other → fewer_vars route other)
  ∧ (∀ R1 R2 k,
       R1 ∈ values Routes → R2 ∈ values Routes →
       __matchVarCount R1 = k → __matchVarCount R2 = k + 1 →
       matches path R1 → matches path R2 →
       ∃ route vars,
         tryMatchRoute sorted path = inr (route, vars)
         ∧ __matchVarCount route ≤ k
         ∧ route ≠ R2
         ∧ ((∀ other, other ∈ values Routes → matches path other →
               other = R1 ∨ __matchVarCount R1 < __matchVarCount other) →
            route = R1 ∧ __match R1 path = Some vars)).
Proof.
  intros Hpath sorted.
  assert (Hperm : sorted ≡ₚ values Routes) by apply sort_routes_perm.
  assert (Hsorted : StronglySorted fewer_vars sorted) by apply sort_routes_sorted.
  assert (Hfound : ∀ route vars, tryMatchRoute sorted path = inr (route, vars) →
                     first_match sorted path = Some (route, vars)).
  { intros route vars. unfold tryMatchRoute. rewrite Hpath.
    destruct (first_match sorted path) as [[r v]|]; [|done]. by intros [= -> ->]. }
  split; [exact Hperm|]. split; [exact Hsorted|].
  split; [intros p Hp; unfold tryMatchRoute; by rewrite Hp|].
  split; [|split].
  - intros Hnone. unfold tryMatchRoute. rewrite Hpath.
    assert (first_match sorted path = None) as ->; [|done].
    apply first_match_none, Forall_forall. intros r Hr. apply Hnone. by rewrite <- Hperm.
  - intros route vars Hres. apply Hfound in Hres.
    split; [by apply first_match_some|].
    intros other Hin Hm. apply (first_match_fewest sorted path route vars); try done.
    by rewrite Hperm.
  - intros R1 R2 k H1 H2 Hk1 Hk2 Hm1 Hm2.
    destruct (first_match_found sorted path R1) as [[route vars] Hfirst];
      [by rewrite Hperm | done |].
    exists route, vars.
    assert (Hres : tryMatchRoute sorted path = inr (route, vars))
      by (unfold tryMatchRoute; by rewrite Hpath, Hfirst).
    assert (Hle : fewer_vars route R1)
      by (apply (first_match_fewest sorted path route vars); try done; by rewrite Hperm).
    unfold fewer_vars in Hle.
    split; [exact Hres|]. split; [lia|]. split; [intros ->; lia|].
    intros Honly.
    destruct (first_match_some _ _ _ _ Hfirst) as (before & after & Heq & Hr & _).
    assert (Hin : route ∈ values Routes).
    { rewrite <- Hperm. fold sorted. rewrite Heq.
      apply elem_of_app. right. apply elem_of_cons. by left. }
    destruct (Honly route Hin) as [->|Hlt]; [by exists vars | done | lia].
Qed.

Lemma C6_witness :
  appleDouble (str "/a/b") = false
  ∧ tryMatchRoute (sortedRoutes three_routes) (str "/a/b") = inr (route_a_b, [])
  ∧ ∀ other, other ∈ values three_routes → matches (str "/a/b") other →
             fewer_vars route_a_b other.
Proof.
  split; [reflexivity|]. split; [reflexivity|].
  destruct (C6_resolution_returns_first_match_of_fewest_variables three_routes
              (str "/a/b") eq_refl) as (_ & _ & _ & _ & Hfirst & _).
  exact (proj2 (Hfirst route_a_b [] eq_refl)).
Defined.

(** ** Runs of [onMessage] *)

Lemma decode_buf_fields (req req' : Req) :
  decode_buf req = inr req' →
  req_id req' = req_id req ∧ req_op req' = req_op req ∧ req_path req' = req_path req
  ∧ req_fh req' = req_fh req ∧ req_offset req' = req_offset req
  ∧ req_size req' = req_size req.
Proof.
  unfold decode_buf. intros H.
  destruct (req_buf req) as [b|]; [|by simplify_eq].
  destruct (truthy (VStr b)); [|by simplify_eq].
  destruct (Base64.atob b); by simplify_eq.
Qed.

Lemma tryMatchRoute_elem (sorted : list Route) (path : jsstring) (route : Route) (vars : Vars) :
  tryMatchRoute sorted path = inr (route, vars) → route ∈ sorted.
Proof.
  unfold tryMatchRoute. destruct (appleDouble path); [done|].
  destruct (first_match sorted path) as [[r v]|] eqn:E; [|done].
  intros [= <- <-]. destruct (first_match_some _ _ _ _ E) as (b & a & -> & _).
  apply elem_of_app. right. apply elem_of_cons. by left.
Qed.

Lemma finish_inv (P : Obj → Prop) (w0 w : World) (ss : Session) (out : list Obj) (response : Obj) :
  w_port w = w_port w0 ++ out →
  pending w0 w ss out →
  answer P (s_req ss) (<["id" := VNum (req_id (s_req ss))]> response) →
  run_inv P w0 (finish ss w response)
  ∧ s_req (snd (finish ss w response)) = s_req ss
  ∧ didTimeout (snd (finish ss w response)) = didTimeout ss.
Proof.
  intros Hport Hout Hans. unfold finish, pending in *.
  destruct (didTimeout ss) eqn:Hd; cbn [run_inv snd s_req s_phase didTimeout timeout].
  - destruct Hout as (-> & Htimer & Hnow). split; [|done].
    exists [timeout_response (s_req ss)]. by rewrite Htimer.
  - destruct Hout as [-> _]. split; [|done]. rewrite app_nil_r in Hport.
    exists [<["id" := VNum (req_id (s_req ss))]> response].
    cbn [postMessage w_port]. rewrite Hport. split; [done|]. split; [done|].
    by eexists.
Qed.

Lemma settle_inv (P : Obj → Prop) (w0 w : World) (ss : Session) (out : list Obj) (t : Task) :
  w_port w = w_port w0 ++ out →
  pending w0 w ss out →
  (∀ result, produces t result → P result) →
  run_inv P w0 (settle ss w t)
  ∧ s_req (snd (settle ss w t)) = s_req ss
  ∧ didTimeout (snd (settle ss w t)) = didTimeout ss.
Proof.
  intros Hport Hout HP. destruct t as [result|e|c k]; cbn [settle].
  - destruct (after_handler (s_req ss) result) as [e|response] eqn:Hafter;
      apply (finish_inv P w0 w ss out); try done.
    + left. exists e. by rewrite <- error_response_id.
    + right. exists result, response. split; [apply HP; constructor|done].
  - apply (finish_inv P w0 w ss out); try done.
    left. exists e. by rewrite <- error_response_id.
  - cbn [run_inv snd s_req s_phase didTimeout timeout]. split; [|done].
    exists out. split; [done|]. split; [done|]. exact Hout.
Qed.

Lemma onMessage_inv (P : Obj → Prop) (sorted : list Route) (req : Req) (w : World) :
  handlers_return P sorted →
  run_inv P w (onMessage sorted req w)
  ∧ didTimeout (snd (onMessage sorted req w)) = false
  ∧ match decode_buf req with
    | inr req' => s_req (snd (onMessage sorted req w)) = req'
                  ∧ ∀ e, s_phase (snd (onMessage sorted req w)) ≠ Aborted e
    | inl e => s_phase (snd (onMessage sorted req w)) = Aborted e
    end.
Proof.
  intros HP. unfold onMessage.
  destruct (decode_buf req) as [e|req'] eqn:Hd.
  { cbn. split; [|done]. exists []. by rewrite app_nil_r. }
  assert (Hpend : ∀ σ, pending w (with_state w σ) (armed req' (w_now w)) [])
    by (intros σ; by split).
  assert (Hpend' : pending w w (armed req' (w_now w)) []) by (by split).
  assert (Hcompleted : ∀ ss w' r, didTimeout ss = false →
            ∀ e, s_phase (snd (finish ss w' r)) ≠ Aborted e).
  { intros ss w' r Hdt e. unfold finish. by rewrite Hdt. }
  destruct (tryMatchRoute sorted (req_path req')) as [e|[route vars]] eqn:Hm.
  { destruct (finish_inv P w w (armed req' (w_now w)) [] (error_response req' e))
      as (Hinv & Hreq & Hdt); [by rewrite app_nil_r | done | |].
    - left. exists e. by rewrite <- error_response_id.
    - split; [done|]. split; [done|]. split; [done|]. by apply Hcompleted. }
  destruct (route_op route (req_op req')) as [handler|] eqn:Hh.
  2:{ destruct (finish_inv P w w (armed req' (w_now w)) []
                  (error_response req' (JsError "TypeError")))
        as (Hinv & Hreq & Hdt); [by rewrite app_nil_r | done | |].
      - left. exists (JsError "TypeError"). by rewrite <- error_response_id.
      - split; [done|]. split; [done|]. split; [done|]. by apply Hcompleted. }
  destruct (handler (with_vars req' vars) (w_state w)) as [σ t] eqn:Hrun.
  destruct (settle_inv P w (with_state w σ) (armed req' (w_now w)) [] t)
    as (Hinv & Hreq & Hdt); [by rewrite app_nil_r | done | |].
  { intros result Hres. apply (HP route (req_op req') handler (with_vars req' vars)
                                 (w_state w) result); [|done|by rewrite Hrun].
    by eapply tryMatchRoute_elem. }
  split; [done|]. split; [done|]. split; [done|].
  intros e. destruct t; cbn [settle]; [| |done].
  - destruct (after_handler _ _); by apply Hcompleted.
  - by apply Hcompleted.
Qed.

Lemma step_inv (P : Obj → Prop) (w0 : World) (ev : Event) (c c' : World * Session) :
  run_inv P w0 c → step ev c = Some c' →
  run_inv P w0 c'
  ∧ s_req (snd c') = s_req (snd c)
  ∧ didTimeout (snd c') = didTimeout (snd c) || is_timer ev
  ∧ (∀ e, s_phase (snd c') = Aborted e → s_phase (snd c) = Aborted e).
Proof.
  destruct c as [w ss]. intros (out & Hport & Hinv) Hstep.
  destruct ev as [s| |ms|f]; cbn [step] in Hstep.
  - (* the awaited call settles *)
    destruct (s_phase ss) as [c k| |e] eqn:Hphase; [|done..].
    destruct Hinv as [HP Hpend].
    destruct (k s (w_state w)) as [σ t] eqn:Hk. injection Hstep as <-.
    destruct (settle_inv P w0 (with_state w σ) ss out t) as (Hinv' & Hreq & Hdt);
      [done | exact Hpend | |].
    { intros result Hres. apply HP. apply (produces_await c k s (w_state w)).
      by rewrite Hk. }
    split; [done|]. split; [done|]. split; [by rewrite Hdt, orb_false_r|].
    intros e. destruct t; cbn [settle snd]; [| |done].
    + destruct (after_handler _ _); unfold finish; by destruct (didTimeout ss).
    + unfold finish; by destruct (didTimeout ss).
  - (* the timer fires *)
    destruct (timeout ss) as [due|] eqn:Htimer; [|done].
    destruct (Z.leb_spec due (w_now w)); [|done]. injection Hstep as <-.
    cbn [snd s_req didTimeout s_phase run_inv]. rewrite orb_true_r.
    split; [|done]. destruct (s_phase ss) as [c k| |e] eqn:Hphase.
    + destruct Hinv as [HP Hpend]. destruct (didTimeout ss).
      { destruct Hpend as (_ & ? & _). congruence. }
      destruct Hpend as [-> Hdue].
      exists [timeout_response (s_req ss)]. cbn [postMessage w_port w_now].
      rewrite Hport, app_nil_r. split; [done|]. split; [done|].
      split; [done|]. split; [done|]. congruence.
    + destruct Hinv as [? _]. congruence.
    + destruct Hinv as (_ & ? & _). congruence.
  - (* time passes *)
    destruct (Z.leb_spec 0 ms); [|done]. injection Hstep as <-.
    cbn [snd]. rewrite orb_false_r. split; [|done].
    exists out. cbn [w_port w_now]. split; [done|].
    destruct (s_phase ss); [| |done].
    + destruct Hinv as [HP Hpend]. split; [done|].
      destruct (didTimeout ss); [|done]. destruct Hpend as (? & ? & ?).
      repeat split; try done. lia.
    + destruct Hinv as [Ht Hpend]. split; [done|].
      destruct (didTimeout ss); [|done]. destruct Hpend as (? & ?). split; [done|lia].
  - (* code of another request runs *)
    injection Hstep as <-. cbn [snd]. rewrite orb_false_r. split; [|done].
    by exists out.
Qed.

Lemma steps_inv (P : Obj → Prop) (w0 : World) (evs : list Event) (c c' : World * Session) :
  run_inv P w0 c → steps evs c = Some c' →
  run_inv P w0 c'
  ∧ s_req (snd c') = s_req (snd c)
  ∧ didTimeout (snd c') = didTimeout (snd c) || existsb is_timer evs
  ∧ (∀ e, s_phase (snd c') = Aborted e → s_phase (snd c) = Aborted e).
Proof.
  revert c. induction evs as [|ev evs IH]; intros c Hinv Hsteps; cbn [steps] in Hsteps.
  { injection Hsteps as <-. cbn [existsb]. by rewrite orb_false_r. }
  destruct (step ev c) as [c1|] eqn:Hstep; [|done].
  destruct (step_inv P w0 ev c c1 Hinv Hstep) as (Hinv1 & Hreq1 & Hdt1 & Hab1).
  destruct (IH c1 Hinv1 Hsteps) as (Hinv' & Hreq' & Hdt' & Hab').
  split; [done|]. split; [congruence|].
  split; [cbn [existsb]; by rewrite Hdt', Hdt1, orb_assoc|].
  intros e He. by apply Hab1, Hab'.
Qed.

Lemma answer_id (P : Obj → Prop) (req : Req) (message : Obj) :
  answer P req message → message !! "id" = Some (VNum (req_id req)).
Proof.
  intros [[e ->]|(result & response & _ & _ & ->)]; [reflexivity|].
  apply lookup_insert_eq.
Qed.

(** C5. A run of [onMessage] posts at most one message, and a message it
    posts carries the id of the request. When the timer's callback has run
    - it can only run 1000 ms or more after the request came in, and only
    while the handler has not resolved - the one message is the ETIMEDOUT
    error, whatever the handler returns or throws afterwards. When the
    handler is done before, the timer is cleared, its callback can no
    longer run, and the one message is the handler's result or the error
    of the [catch] block. *)
Theorem C5_at_most_one_response_per_request
    (sorted : list Route) (req : Req) (w w' : World) (ss' : Session) (evs : list Event) :
  steps evs (onMessage sorted req w) = Some (w', ss') →
  ∃ out,
    w_port w' = w_port w ++ out
    ∧ (length out ≤ 1)%nat
    ∧ (∀ message, message ∈ out → message !! "id" = Some (VNum (req_id req)))
    ∧ didTimeout ss' = existsb is_timer evs
    ∧ (didTimeout ss' = true →
         out = [error_message (s_req ss') unix.ETIMEDOUT]
         ∧ timeout ss' = None
         ∧ w_now w + 1000 ≤ w_now w')
    ∧ (didTimeout ss' = false → s_phase ss' = Completed →
         timeout ss' = None
         ∧ step TimerFires (w', ss') = None
         ∧ ∃ message, out = [message] ∧ answer (λ _, True) (s_req ss') message)
    ∧ (didTimeout ss' = false → (∃ c k, s_phase ss' = Waiting c k) →
         out = [] ∧ timeout ss' = Some (w_now w + 1000)).
Proof.
  intros Hsteps.
  destruct (onMessage_inv (λ _, True) sorted req w) as (Hinv0 & Hdt0 & Hreq0); [done|].
  destruct (steps_inv (λ _, True) w evs _ (w', ss') Hinv0 Hsteps)
    as (Hinv & Hreq & Hdt & Hab).
  cbn [snd] in Hreq, Hdt, Hab. rewrite Hdt0 in Hdt. cbn [orb] in Hdt.
  assert (Hid : s_phase ss' = Completed ∨ (∃ c k, s_phase ss' = Waiting c k) →
                req_id (s_req ss') = req_id req).
  { intros Hphase. destruct (decode_buf req) as [e|req'] eqn:Hd.
    - destruct (s_phase (snd (onMessage sorted req w))) eqn:E; try done.
      unfold onMessage in Hreq. rewrite Hd in Hreq. cbn in Hreq. by rewrite Hreq.
    - destruct Hreq0 as [Hreq0 _]. rewrite Hreq, Hreq0.
      by apply decode_buf_fields in Hd as (? & _). }
  destruct Hinv as (out & Hport & Hinv). exists out. split; [exact Hport|].
  rewrite <- Hdt. rewrite timeout_response_message in Hinv.
  destruct (s_phase ss') as [c k| |e] eqn:Hphase.
  - destruct Hinv as [_ Hpend].
    destruct (didTimeout ss').
    + destruct Hpend as (-> & Htimer & Hnow).
      split; [cbn; lia|]. split.
      { intros m ->%list_elem_of_singleton. rewrite <- Hid by (right; eauto). reflexivity. }
      split; [done|]. split; [done|]. split; [done|]. done.
    + destruct Hpend as [-> Htimer].
      split; [cbn; lia|]. split; [by intros m ?%elem_of_nil|].
      split; [done|]. split; [done|]. split; [done|]. done.
  - destruct Hinv as [Htimer Hout]. destruct (didTimeout ss').
    + destruct Hout as [-> Hnow].
      split; [cbn; lia|]. split.
      { intros m ->%list_elem_of_singleton. rewrite <- Hid by (by left). reflexivity. }
      split; [done|]. split; [done|]. split; [done|]. by intros _ (? & ? & ?).
    + destruct Hout as (message & -> & Hans).
      split; [cbn; lia|]. split.
      { intros m ->%list_elem_of_singleton. rewrite (answer_id _ _ _ Hans).
        rewrite Hid; [done|]. by left. }
      split; [done|]. split; [done|]. split.
      { intros _ _. split; [done|]. split; [cbn [step]; by rewrite Htimer|]. by eexists. }
      by intros _ (? & ? & ?).
  - destruct Hinv as (-> & Htimer & Hdt').
    split; [cbn; lia|]. split; [by intros m ?%elem_of_nil|].
    split; [done|]. rewrite Hdt'. split; [done|]. split; [done|].
    by intros _ (? & ? & ?).
Qed.

Lemma C5_witness :
  (* the call of the read accessor settles after the timer has fired *)
  let req := request 7 "open" "/tabs.json" in
  let evs := [Elapse 1000; TimerFires;
              Settle (Resolved (Some (CString (str "late"))))] in
  ∃ w' ss',
    steps evs (onMessage [tabs_route None] req world0) = Some (w', ss')
    ∧ w_port w' = [error_message req unix.ETIMEDOUT]
    ∧ s_phase ss' = Completed.
Proof.
  intros req evs.
  destruct (steps evs (onMessage [tabs_route None] req world0)) as [[w' ss']|] eqn:Hrun;
    [|discriminate Hrun].
  destruct (C5_at_most_one_response_per_request [tabs_route None] req world0 w' ss' evs Hrun)
    as (out & Hport & _ & _ & Hdt & Hfired & _).
  exists w', ss'. split; [reflexivity|].
  destruct (Hfired Hdt) as (-> & _). injection Hrun as <- <-.
  split; reflexivity.
Defined.







Example end_to_end_getattr :
  let req := request 1 "getattr" "/tabs.json" in
  w_port (answered [tabs_route None] req [Resolved (Some (CString (str "[]")))] world0)
  = [ {[ "id" := VNum 1; "op" := VStr (str "getattr");
         "st_mode" := VNum 0x8124 (* S_IFREG | 0444 *);
         "st_nlink" := VNum 1; "st_size" := VNum 2 ]} ].
Proof. reflexivity. Qed.

Example end_to_end_open_undefined :
  let req := request 2 "open" "/tabs.json" in
  w_port (answered [tabs_route None] req [Resolved None] world0)
  = [ {[ "id" := VNum 2; "op" := VStr (str "open"); "error" := VNum unix.ENOENT ]} ].
Proof. reflexivity. Qed.

(** ** [btoa] and [atob] are inverse on bytes *)

Lemma list_ind3 {A} (P : list A → Prop) :
  P [] → (∀ a, P [a]) → (∀ a b, P [a; b]) →
  (∀ a b c rest, P rest → P (a :: b :: c :: rest)) →
  ∀ l, P l.
Proof.
  intros H0 H1 H2 H3.
  assert (Hall : ∀ l, P l ∧ (∀ a, P (a :: l)) ∧ (∀ a b, P (a :: b :: l))).
  { induction l as [|x l (IH0 & IH1 & IH2)]; [by auto|].
    split; [apply IH1|]. split; [intros a; apply IH2|]. intros a b. by apply H3. }
  intros l. apply Hall.
Qed.

Section base64.

Local Open Scope N_scope.

Lemma alphabet_sextet (v : N) : v < 64 → Base64.sextet (Base64.alphabet v) = Some v.
Proof.
  intros Hv. unfold Base64.alphabet, Base64.sextet.
  repeat match goal with
         | |- context [?a <? ?b] => destruct (N.ltb_spec a b)
         end;
  try destruct (N.eqb_spec v 62);
  repeat match goal with
         | |- context [?a <=? ?b] => destruct (N.leb_spec a b)
         | |- context [?a =? ?b] => destruct (N.eqb_spec a b)
         end; cbn [andb]; try lia; f_equal; lia.
Qed.

Lemma alphabet_not_pad (v : N) : (Base64.alphabet v =? Base64.pad) = false.
Proof.
  unfold Base64.alphabet, Base64.pad. apply N.eqb_neq.
  repeat match goal with
         | |- context [?a <? ?b] => destruct (N.ltb_spec a b)
         end;
  try destruct (N.eqb_spec v 62);
  repeat match goal with
         | |- context [?a =? ?b] => destruct (N.eqb_spec a b)
         end; lia.
Qed.

Lemma alphabet_not_whitespace (v : N) : Base64.is_whitespace (Base64.alphabet v) = false.
Proof.
  unfold Base64.alphabet, Base64.is_whitespace.
  repeat match goal with
         | |- context [?a <? ?b] => destruct (N.ltb_spec a b)
         end;
  try destruct (N.eqb_spec v 62);
  repeat match goal with
         | |- context [?a =? ?b] => destruct (N.eqb_spec a b)
         end; cbn [orb]; try reflexivity; lia.
Qed.

Lemma strip_padding_cons (c : N) (l : jsstring) :
  (c =? Base64.pad) = false →
  Base64.strip_padding (c :: l) = c :: Base64.strip_padding l.
Proof.
  intros Hc. cbn [Base64.strip_padding]. destruct l as [|d [|e l]]; rewrite ?Hc; done.
Qed.

Lemma strip_padding_encode (bs : list N) :
  Base64.strip_padding (Base64.encode bs) = map Base64.alphabet (to_sextets bs).
Proof.
  induction bs as [|a|a b|a b c rest IH] using list_ind3;
    cbn [Base64.encode to_sextets map];
    rewrite ?strip_padding_cons by apply alphabet_not_pad; [reflexivity..|].
  by rewrite IH.
Qed.

Lemma encode_no_whitespace (bs : list N) :
  Forall (λ c, Base64.is_whitespace c = false) (Base64.encode bs).
Proof.
  induction bs as [|a|a b|a b c rest IH] using list_ind3; cbn [Base64.encode];
    repeat (constructor; [apply alphabet_not_whitespace || reflexivity|]);
    first [constructor | exact IH].
Qed.

Lemma filter_whitespace_encode (bs : list N) :
  filter (λ c, Base64.is_whitespace c = false) (Base64.encode bs) = Base64.encode bs.
Proof.
  generalize (Base64.encode bs), (encode_no_whitespace bs).
  unfold jsstring. induction 1 as [|c l Hc _ IH]; [done|].
  rewrite filter_cons_True; [by rewrite IH | exact Hc].
Qed.

Ltac div_mod_lia := zify; Z.to_euclidean_division_equations; lia.

Lemma length_encode (bs : list N) : N.of_nat (length (Base64.encode bs)) mod 4 = 0.
Proof.
  induction bs as [|a|a b|a b c rest IH] using list_ind3;
    cbn [Base64.encode length]; [done..|].
  revert IH. generalize (length (Base64.encode rest)). intros n IH. div_mod_lia.
Qed.

Lemma length_sextets (bs : list N) : N.of_nat (length (to_sextets bs)) mod 4 ≠ 1.
Proof.
  induction bs as [|a|a b|a b c rest IH] using list_ind3;
    cbn [to_sextets length]; [done..|].
  revert IH. generalize (length (to_sextets rest)). intros n IH. div_mod_lia.
Qed.

Lemma sextets_alphabet (vs : list N) :
  Forall (λ v, v < 64) vs → Base64.sextets (map Base64.alphabet vs) = Some vs.
Proof.
  induction 1 as [|v vs Hv _ IH]; [done|].
  cbn [map Base64.sextets]. by rewrite alphabet_sextet, IH.
Qed.

Lemma to_sextets_bounded (bs : list N) :
  Forall (λ b, b < 256) bs → Forall (λ v, v < 64) (to_sextets bs).
Proof.
  induction bs as [|a|a b|a b c rest IH] using list_ind3; cbn [to_sextets]; intros Hbs.
  - constructor.
  - apply Forall_cons in Hbs as [Ha _]. repeat constructor; div_mod_lia.
  - apply Forall_cons in Hbs as [Ha [Hb _]%Forall_cons]. repeat constructor; div_mod_lia.
  - apply Forall_cons in Hbs as [Ha [Hb [Hc Hrest]%Forall_cons]%Forall_cons].
    repeat (constructor; [div_mod_lia|]). by apply IH.
Qed.

Lemma decode_to_sextets (bs : list N) :
  Forall (λ b, b < 256) bs → Base64.decode (to_sextets bs) = bs.
Proof.
  induction bs as [|a|a b|a b c rest IH] using list_ind3;
    cbn [to_sextets Base64.decode]; intros Hbs.
  - done.
  - apply Forall_cons in Hbs as [Ha _]. f_equal. div_mod_lia.
  - apply Forall_cons in Hbs as [Ha [Hb _]%Forall_cons].
    f_equal; [|f_equal]; div_mod_lia.
  - apply Forall_cons in Hbs as [Ha [Hb [Hc Hrest]%Forall_cons]%Forall_cons].
    rewrite IH by done. f_equal; [|f_equal; [|f_equal]]; div_mod_lia.
Qed.

(** Decoding what [btoa] gives returns the string, for every string of
    units below 256. *)
Lemma atob_btoa (s : jsstring) :
  Forall (λ c, c < 256) s →
  Base64.btoa s = inr (Base64.encode s)
  ∧ Base64.atob (Base64.encode s) = inr s.
Proof.
  intros Hs. split.
  - unfold Base64.btoa.
    assert (forallb (λ c, c <=? 255) s = true) as ->; [|done].
    apply forallb_forall. intros c Hc. rewrite Forall_forall in Hs.
    apply N.leb_le. apply list_elem_of_In in Hc. specialize (Hs c Hc). cbn in Hs. lia.
  - unfold Base64.atob. rewrite filter_whitespace_encode, length_encode. cbn [N.eqb].
    rewrite strip_padding_encode, length_map.
    destruct (N.eqb_spec (N.of_nat (length (to_sextets s)) mod 4) 1) as [E|_];
      [by apply length_sextets in E|].
    rewrite sextets_alphabet by (by apply to_sextets_bounded).
    by rewrite decode_to_sextets.
Qed.

Lemma fromCharCode_bounded (arr : list byte) : Forall (λ c, c < 256) (fromCharCode arr).
Proof.
  unfold fromCharCode. apply Forall_map, Forall_forall. intros b _.
  pose proof (Byte.to_N_bounded b). cbn. lia.
Qed.

End base64.

(** ** The payload of a request and of a response *)

Lemma decode_buf_bytes (req : Req) (payload : list byte) :
  req_buf req = Some (Base64.encode (fromCharCode payload)) →
  ∃ req', decode_buf req = inr req' ∧ req_buf req' = Some (fromCharCode payload).
Proof.
  intros Hbuf. unfold decode_buf. rewrite Hbuf.
  destruct (truthy (VStr (Base64.encode (fromCharCode payload)))) eqn:Htruthy.
  - destruct (atob_btoa (fromCharCode payload) (fromCharCode_bounded payload)) as [_ ->].
    by eexists.
  - exists req. split; [done|]. rewrite Hbuf. f_equal.
    cbn [truthy] in Htruthy. apply negb_false_iff, bool_decide_eq_true in Htruthy.
    destruct payload; [done|]. by destruct payload as [|? [|? ?]].
Qed.

Lemma after_handler_bytes (req : Req) (result : Obj) (payload : list byte) :
  result !! "buf" = Some (VStr (fromCharCode payload)) →
  ∃ response,
    after_handler req result = inr response
    ∧ response !! "buf" = Some (VStr (Base64.encode (fromCharCode payload))).
Proof.
  intros Hbuf. unfold after_handler. rewrite lookup_insert_ne by done. rewrite Hbuf.
  destruct (truthy (VStr (fromCharCode payload))) eqn:Htruthy.
  - cbn [to_jsstring].
    destruct (atob_btoa (fromCharCode payload) (fromCharCode_bounded payload)) as [-> _].
    eexists. split; [done|]. apply lookup_insert_eq.
  - eexists. split; [done|]. rewrite lookup_insert_ne by done. rewrite Hbuf.
    cbn [truthy] in Htruthy. apply negb_false_iff, bool_decide_eq_true in Htruthy.
    by rewrite Htruthy.
Qed.

(** C4. The payload is decoded on arrival and encoded on departure without
    loss, and [read] answers with the cached bytes as they are. [write]
    does not keep the bytes of its payload: it runs the text encoder over
    the decoded binary string, so that every byte above 127 becomes two
    bytes. The payload [E9] written to an empty file leaves [C3 A9] in the
    buffer, is reported as two bytes written, and is read back as
    [C3 A9]. *)
Theorem C4_write_reencodes_bytes_above_127 :
  (∀ payload : list byte,
      Base64.btoa (fromCharCode payload) = inr (Base64.encode (fromCharCode payload))
      ∧ Base64.atob (Base64.encode (fromCharCode payload)) = inr (fromCharCode payload))
  ∧ (∀ payload : list byte,
        stringToUtf8Array (fromCharCode payload) = flat_map reencoded payload)
  ∧ let sorted := [tabs_route (Some "setTabs")] in
    let payload := [Byte.xe9] in
    let opened := answered sorted (request 1 "open" "/tabs.json")
                    [Resolved (Some (CString []))] world0 in
    let writing := request_fh 2 "write" "/tabs.json" 1 0 0
                     (Some (Base64.encode (fromCharCode payload))) in
    let w := answered sorted writing [Resolved None] opened in
    let w' := answered sorted (request_fh 3 "read" "/tabs.json" 1 0 10 None) [] w in
    req_buf writing = Some (str "6Q==")
    ∧ buffer (w_state w) 1 = Some [Byte.xc3; Byte.xa9]
    ∧ [Byte.xc3; Byte.xa9] ≠ payload
    ∧ w_port w'
      = [ {[ "id" := VNum 1; "op" := VStr (str "open"); "fh" := VNum 1 ]};
          {[ "id" := VNum 2; "op" := VStr (str "write"); "size" := VNum 2 ]};
          {[ "id" := VNum 3; "op" := VStr (str "read");
             "buf" := VStr (Base64.encode (fromCharCode [Byte.xc3; Byte.xa9])) ]} ].
Proof.
  split; [intros payload; apply atob_btoa, fromCharCode_bounded|].
  split; [apply encode_binary|].
  cbv zeta. split; [reflexivity|]. split; [reflexivity|]. split; [discriminate|].
  reflexivity.
Qed.

(** ** [sanitize] *)

Example sanitize_title :
  sanitize (VStr (str "My Tab: a/b?.txt..")) = inr (str "My_Tab__a_b_.txt_").
Proof. reflexivity. Qed.

Example sanitize_dots : sanitize (VStr (str "...")) = inr (str "_").
Proof. reflexivity. Qed.

Example sanitize_reserved : sanitize (VStr (str "Com1.log")) = inr (str "_").
Proof. reflexivity. Qed.

Example sanitize_not_reserved : sanitize (VStr (str "console")) = inr (str "console").
Proof. reflexivity. Qed.

Section sanitize_properties.

Import Sanitize.
Local Open Scope N_scope.

Lemma safe_underscore : safe_char 95.
Proof. split; reflexivity. Qed.

Lemma replace_class_length (class : N → bool) (s : jsstring) :
  length (replace_class class [95] s) = length s.
Proof.
  unfold replace_class. induction s as [|c s IH]; [done|].
  cbn. destruct (class c); cbn; by rewrite IH.
Qed.

Lemma replace_class_clears (class : N → bool) (s : jsstring) :
  class 95 = false → Forall (λ c, class c = false) (replace_class class [95] s).
Proof.
  intros H. unfold replace_class. induction s as [|c s IH]; [constructor|]. cbn.
  destruct (class c) eqn:E; cbn; by constructor.
Qed.

Lemma replace_class_keeps (class : N → bool) (Q : N → Prop) (s : jsstring) :
  Q 95 → Forall Q s → Forall Q (replace_class class [95] s).
Proof.
  intros H. unfold replace_class. induction 1 as [|c s Hc _ IH]; [constructor|]. cbn.
  destruct (class c); cbn; by constructor.
Qed.

Lemma replace_class_id (class : N → bool) (r s : jsstring) :
  Forall (λ c, class c = false) s → replace_class class r s = s.
Proof.
  unfold replace_class. induction 1 as [|c s Hc _ IH]; [done|].
  cbn. rewrite Hc. cbn. by rewrite IH.
Qed.

Lemma forallb_last (P : N → bool) (s : jsstring) (c : N) :
  forallb P s = true → last s = Some c → P c = true.
Proof.
  intros Hall Hlast. rewrite forallb_forall in Hall. apply Hall.
  apply list_elem_of_In. by apply last_Some_elem_of.
Qed.

Lemma replace_trailing_id (r s : jsstring) :
  ends_dot_or_space s = false → replace_trailing r s = s.
Proof.
  induction s as [|c s IH]; [done|]. intros Hend. cbn [replace_trailing].
  destruct (forallb dot_or_space (c :: s)) eqn:Hall.
  - unfold ends_dot_or_space in Hend.
    destruct (last (c :: s)) as [x|] eqn:Hlast; [|by apply last_None in Hlast].
    by rewrite (forallb_last _ _ _ Hall Hlast) in Hend.
  - f_equal. destruct s as [|d s]; [done|]. apply IH.
    unfold ends_dot_or_space in *. by rewrite last_cons_cons in Hend.
Qed.

Lemma replace_trailing_nil (s : jsstring) : replace_trailing [95] s = [] → s = [].
Proof. destruct s as [|c s]; [done|]. cbn. by destruct (_ && _). Qed.

Lemma replace_trailing_ends (s : jsstring) :
  ends_dot_or_space (replace_trailing [95] s) = false.
Proof.
  induction s as [|c s IH]; [done|]. cbn [replace_trailing].
  destruct (forallb dot_or_space (c :: s)) eqn:Hall; [done|].
  destruct (replace_trailing [95] s) as [|d t] eqn:E.
  - apply replace_trailing_nil in E. subst s. cbn in Hall.
    unfold ends_dot_or_space. cbn. by destruct (dot_or_space c).
  - unfold ends_dot_or_space in *. by rewrite last_cons_cons.
Qed.

Lemma replace_trailing_split (r s : jsstring) :
  replace_trailing r s = s
  ∨ ∃ p run, s = p ++ run ∧ run ≠ [] ∧ forallb dot_or_space run = true
             ∧ replace_trailing r s = p ++ r.
Proof.
  induction s as [|c s IH]; [by left|]. cbn [replace_trailing].
  destruct (forallb dot_or_space (c :: s)) eqn:Hall.
  - right. by exists [], (c :: s).
  - destruct IH as [->|(p & run & -> & Hrun & Hdots & ->)]; [by left|].
    right. by exists (c :: p), run.
Qed.

Lemma replace_trailing_length (s : jsstring) :
  (length (replace_trailing [95%N] s) ≤ length s)%nat.
Proof.
  induction s as [|c s IH]; [done|]. cbn [replace_trailing].
  destruct (forallb dot_or_space (c :: s)); cbn; lia.
Qed.

Lemma replace_trailing_keeps (Q : N → Prop) (s : jsstring) :
  Q 95 → Forall Q s → Forall Q (replace_trailing [95] s).
Proof.
  intros H. induction 1 as [|c s Hc _ IH]; [constructor|]. cbn [replace_trailing].
  destruct (forallb dot_or_space (c :: s)); by repeat constructor.
Qed.

Lemma all_dots_ends (s : jsstring) : all_dots s = true → ends_dot_or_space s = true.
Proof.
  intros H. destruct s as [|c s]; [done|]. cbn [all_dots] in H.
  unfold ends_dot_or_space.
  destruct (last (c :: s)) as [x|] eqn:Hlast; [|by apply last_None in Hlast].
  unfold dot_or_space. by rewrite (forallb_last _ _ _ H Hlast).
Qed.

Lemma reserved_name_no_underscore (name : jsstring) :
  reserved_name name = true → 95 ∉ name.
Proof.
  intros Hname Hin.
  destruct name as [|a [|b [|c [|d [|e name]]]]]; try done; cbn [reserved_name] in Hname.
  - apply bool_decide_eq_true in Hname. set_unfold in Hname. cbv -[lower] in Hname.
    set_unfold in Hin.
    destruct Hin as [<-|[<-|[<-|[]]]]; change (lower 95) with 95 in Hname;
      destruct_or!; simplify_eq.
  - apply andb_true_iff in Hname as [Hname Hd].
    apply bool_decide_eq_true in Hname. set_unfold in Hname. cbv -[lower] in Hname.
    set_unfold in Hin.
    destruct Hin as [<-|[<-|[<-|[<-|[]]]]]; try done; change (lower 95) with 95 in Hname;
      destruct_or!; simplify_eq.
Qed.

Lemma dot_or_space_not_terminator (c : N) :
  dot_or_space c = true → negb (line_terminator c) = true.
Proof.
  unfold dot_or_space. intros [H|H]%orb_true_iff; apply N.eqb_eq in H; by subst.
Qed.

Lemma reserved_tail_run (tail run : jsstring) :
  reserved_tail (tail ++ [95]) = true → forallb dot_or_space run = true →
  reserved_tail (tail ++ run) = true.
Proof.
  intros Htail Hrun. destruct tail as [|c rest]; [done|]. cbn in *.
  apply andb_true_iff in Htail as [-> Hrest]. cbn.
  rewrite forallb_app in Hrest |- *. apply andb_true_iff in Hrest as [-> _]. cbn.
  rewrite forallb_forall in Hrun |- *. intros x Hx.
  by apply dot_or_space_not_terminator, Hrun.
Qed.

Lemma reserved_at_run (n : nat) (p run : jsstring) :
  reserved_name (take n (p ++ [95])) && reserved_tail (drop n (p ++ [95])) = true →
  forallb dot_or_space run = true →
  reserved_name (take n (p ++ run)) && reserved_tail (drop n (p ++ run)) = true.
Proof.
  intros [Hname Htail]%andb_true_iff Hrun.
  destruct (decide (n ≤ length p)%nat) as [Hn|Hn].
  - rewrite take_app_le, drop_app_le in * by done.
    by rewrite Hname, (reserved_tail_run _ _ Htail Hrun).
  - rewrite take_ge in Hname by (rewrite length_app; cbn; lia).
    apply reserved_name_no_underscore in Hname. destruct Hname.
    apply elem_of_app. right. by apply list_elem_of_singleton.
Qed.

Lemma windows_reserved_trailing (s : jsstring) :
  windows_reserved s = false → windows_reserved (replace_trailing [95] s) = false.
Proof.
  intros Hs. destruct (replace_trailing_split [95] s) as [->|(p & run & -> & _ & Hrun & ->)];
    [done|].
  destruct (windows_reserved (p ++ [95])) eqn:E; [|done].
  unfold windows_reserved in *.
  apply orb_true_iff in E as [E|E]; apply (reserved_at_run _ _ run) in E; try done;
    rewrite E in Hs; by rewrite ?orb_true_r in Hs.
Qed.

Lemma replace_whole_cases (matches : jsstring → bool) (r s : jsstring) :
  (matches s = true ∧ replace_whole matches r s = r)
  ∨ (matches s = false ∧ replace_whole matches r s = s).
Proof. unfold replace_whole. destruct (matches s); auto. Qed.

Lemma replaced_safe (s : jsstring) : Forall safe_char (replaced s [95]).
Proof.
  unfold replaced.
  assert (H2 : Forall safe_char (replace_class control [95] (replace_class illegal [95] s))).
  { apply Forall_and. split.
    - apply replace_class_keeps; [done|]. by apply replace_class_clears.
    - by apply replace_class_clears. }
  apply replace_trailing_keeps; [apply safe_underscore|].
  destruct (replace_whole_cases windows_reserved [95]
              (replace_whole all_dots [95]
                 (replace_class control [95] (replace_class illegal [95] s))))
    as [[_ ->]|[_ ->]]; [repeat constructor; apply safe_underscore|].
  destruct (replace_whole_cases all_dots [95]
              (replace_class control [95] (replace_class illegal [95] s)))
    as [[_ ->]|[_ ->]]; [repeat constructor; apply safe_underscore|done].
Qed.

Lemma replaced_clean (s : jsstring) : clean_name (replaced s [95]).
Proof.
  split; [apply replaced_safe|].
  unfold replaced.
  set (z := replace_whole all_dots [95] _).
  assert (Hends := replace_trailing_ends (replace_whole windows_reserved [95] z)).
  split_and!; [|apply windows_reserved_trailing|done].
  - destruct (all_dots _) eqn:E; [|done]. apply all_dots_ends in E. congruence.
  - by destruct (replace_whole_cases windows_reserved [95] z) as [[_ ->]|[? ->]].
Qed.

Lemma replaced_id (r s : jsstring) : clean_name s → replaced s r = s.
Proof.
  intros (Hsafe & Hdots & Hres & Hend). unfold replaced.
  apply Forall_and in Hsafe as [Hill Hctl].
  rewrite (replace_class_id illegal) by done.
  rewrite (replace_class_id control) by done. unfold replace_whole.
  rewrite Hdots, Hres. by apply replace_trailing_id.
Qed.

Lemma replaced_length (s : jsstring) : (length (replaced s [95%N]) ≤ length s)%nat.
Proof.
  unfold replaced. etrans; [apply replace_trailing_length|].
  set (z := replace_class control _ _).
  assert (Hz : length z = length s) by (unfold z; by rewrite !replace_class_length).
  assert (H3 : (length (replace_whole all_dots [95%N] z) ≤ length z)%nat).
  { destruct (replace_whole_cases all_dots [95] z) as [[H ->]|[_ ->]]; [|done].
    destruct z; [done|cbn; lia]. }
  rewrite <- Hz. etrans; [|apply H3].
  destruct (replace_whole_cases windows_reserved [95] (replace_whole all_dots [95] z))
    as [[H ->]|[_ ->]]; [|done].
  destruct (replace_whole _ _ z); [done|cbn; lia].
Qed.

Lemma replaced_nil (s : jsstring) : replaced s [95] = [] ↔ s = [].
Proof.
  split; [|by intros ->]. intros H.
  assert (Hlen : length (replace_class control [95] (replace_class illegal [95] s))
                 = length s) by (by rewrite !replace_class_length).
  unfold replaced in H. apply replace_trailing_nil in H.
  destruct (replace_whole_cases windows_reserved [95]
              (replace_whole all_dots [95]
                 (replace_class control [95] (replace_class illegal [95] s))))
    as [[_ E]|[_ E]]; rewrite E in H; [done|].
  destruct (replace_whole_cases all_dots [95]
              (replace_class control [95] (replace_class illegal [95] s)))
    as [[_ E']|[_ E']]; rewrite E' in H; [done|].
  rewrite H in Hlen. by destruct s.
Qed.

End sanitize_properties.

(** X1. Whatever string [sanitize] is given, it returns a string of at most
    200 code units, no longer than the input, in which no character of the
    illegal class (slash, question mark, angle brackets, backslash, colon,
    star, bar, double quote, space) and no control character (0x00-0x1f,
    0x80-0x9f) is left. *)
Theorem sanitize_output_is_safe (s : jsstring) :
  ∃ out, sanitize (VStr s) = inr out
         ∧ (length out ≤ 200)%nat ∧ (length out ≤ length s)%nat
         ∧ Forall safe_char out.
Proof.
  eexists. split; [reflexivity|]. split_and!.
  - rewrite length_take. lia.
  - rewrite length_take. pose proof (replaced_length s) as Hle.
    change [95%N] with (str "_") in Hle. lia.
  - apply Forall_take, replaced_safe.
Qed.

(** X2. [sanitize] returns the empty string for the empty string only: a
    non-empty title never becomes an empty file name. *)
Theorem sanitize_empty_only_for_empty (s : jsstring) :
  sanitize (VStr s) = inr [] ↔ s = [].
Proof.
  split; [|by intros ->]. intros H. injection H as H.
  apply replaced_nil. destruct (Sanitize.replaced s _); [done|discriminate].
Qed.

(** X3. A name that has no illegal and no control character, is not made
    of dots only, is not a reserved Windows device name (with or without
    an extension), does not end in a dot or a space and has at most 200
    code units is returned unchanged. *)
Theorem sanitize_keeps_clean_names (s : jsstring) :
  clean_name s → (length s ≤ 200)%nat → sanitize (VStr s) = inr s.
Proof.
  intros Hclean Hlen. unfold sanitize, Sanitize.sanitize.
  rewrite replaced_id by done. by rewrite take_ge.
Qed.

Lemma sanitize_keeps_clean_names_witness :
  sanitize (VStr (str "tabs.json")) = inr (str "tabs.json").
Proof.
  apply sanitize_keeps_clean_names.
  - split; [|by vm_compute]. repeat constructor.
  - vm_compute. lia.
Defined.

(** X4. The result of [sanitize] is either a clean name (nothing left for
    [sanitize] to replace) or it was cut to exactly 200 code units; in
    particular the result is never the directory name dot or dot-dot. *)
Theorem sanitize_output_clean_or_cut (s out : jsstring) :
  sanitize (VStr s) = inr out →
  (clean_name out ∨ length out = 200%nat)
  ∧ out ≠ str "." ∧ out ≠ str "..".
Proof.
  intros H. injection H as <-.
  assert (Hcases : clean_name (take 200 (Sanitize.replaced s (str "_")))
                   ∨ length (take 200 (Sanitize.replaced s (str "_"))) = 200%nat).
  { destruct (decide (length (Sanitize.replaced s (str "_")) ≤ 200)%nat) as [Hle|Hgt].
    - left. rewrite take_ge by done. apply replaced_clean.
    - right. rewrite length_take. lia. }
  split; [done|].
  destruct Hcases as [(_ & Hdots & _)|Hlen].
  - split; intros E; by rewrite E in Hdots.
  - split; intros E; by rewrite E in Hlen.
Qed.

Lemma sanitize_output_clean_or_cut_witness :
  (clean_name (str "_") ∨ length (str "_") = 200%nat)
  ∧ str "_" ≠ str "." ∧ str "_" ≠ str "..".
Proof. by apply (sanitize_output_clean_or_cut (str "..")). Defined.

(** X5. On an input of at most 200 code units [sanitize] is idempotent:
    sanitizing its result again changes nothing. *)
Theorem sanitize_idempotent (s out : jsstring) :
  (length s ≤ 200)%nat → sanitize (VStr s) = inr out → sanitize (VStr out) = inr out.
Proof.
  intros Hlen H. injection H as <-.
  pose proof (replaced_length s) as Hle. change [95%N] with (str "_") in Hle.
  rewrite take_ge by lia. unfold sanitize, Sanitize.sanitize.
  rewrite replaced_id by apply replaced_clean. by rewrite take_ge by lia.
Qed.

Lemma sanitize_idempotent_witness :
  sanitize (VStr (str "My_Tab__a_b_.txt_")) = inr (str "My_Tab__a_b_.txt_").
Proof.
  apply (sanitize_idempotent (str "My Tab: a/b?.txt..")); [vm_compute; lia|reflexivity].
Defined.

(** The bound of 200 is needed: a clean name of 201 units whose 200th is
    a dot is cut to a name that ends in a dot, which a second pass
    replaces. *)
Example sanitize_cut_not_idempotent :
  let s := replicate 199 97%N ++ str ".b" in
  sanitize (VStr s) = inr (replicate 199 97%N ++ str ".")
  ∧ sanitize (VStr (replicate 199 97%N ++ str ".")) = inr (replicate 199 97%N ++ str "_").
Proof. by vm_compute. Qed.

(** ** The handles of the cache *)

Lemma issued_initial : issued initial.
Proof. split; [done|]. intros h so H. cbn in H. by rewrite lookup_empty in H. Qed.

Lemma js_incr_bounds (n : Z) : 0 ≤ n → 0 < js_incr n ∨ (js_incr n = n ∧ 0 < n).
Proof. intros Hn. unfold js_incr. destruct (Z.ltb_spec n (2 ^ 53)); lia. Qed.

Lemma js_incr_mono (n : Z) : n ≤ js_incr n.
Proof. unfold js_incr. destruct (Z.ltb_spec n (2 ^ 53)); lia. Qed.

Lemma issued_heap (σ : State) (hp : gmap loc (list byte)) :
  issued σ → issued {| heap := hp; store := store σ; nextHandle := nextHandle σ |}.
Proof. by intros [??]. Qed.

Lemma issued_stored (σ : State) (hp : gmap loc (list byte)) (so : StoredObject) :
  issued σ →
  issued {| heap := hp; store := <[js_incr (nextHandle σ) := so]> (store σ);
            nextHandle := js_incr (nextHandle σ) |}.
Proof.
  intros [Hn Hs]. pose proof (js_incr_mono (nextHandle σ)).
  split; cbn [store nextHandle]; [lia|].
  intros h so'. rewrite lookup_insert. case_decide.
  - intros _. subst h. destruct (js_incr_bounds _ Hn); lia.
  - intros Hso. apply Hs in Hso. lia.
Qed.

Lemma issued_set (σ : State) (hp : gmap loc (list byte)) (h : Z) (so so' : StoredObject) :
  issued σ → store σ !! h = Some so →
  issued {| heap := hp; store := <[h := so']> (store σ); nextHandle := nextHandle σ |}.
Proof.
  intros [Hn Hs] Hso. split; [done|]. cbn [store nextHandle].
  intros h' so''. rewrite lookup_insert. case_decide; [subst; intros _; by eapply Hs|].
  apply Hs.
Qed.

Lemma issued_repointed (σ : State) (hp : gmap loc (list byte)) (f : StoredObject → StoredObject) :
  issued σ →
  issued {| heap := hp; store := f <$> store σ; nextHandle := nextHandle σ |}.
Proof.
  intros [Hn Hs]. split; [done|]. cbn [store nextHandle].
  intros h so. rewrite lookup_fmap. destruct (store σ !! h) as [so0|] eqn:E; [|done].
  intros _. by eapply Hs.
Qed.

Lemma issued_removed (σ : State) (hp : gmap loc (list byte)) (h : Z) :
  issued σ →
  issued {| heap := hp; store := delete h (store σ); nextHandle := nextHandle σ |}.
Proof.
  intros [Hn Hs]. split; [done|]. cbn [store nextHandle].
  intros h' so. rewrite lookup_delete_Some. intros [_ Hso]. by eapply Hs.
Qed.

(** X6. The handles of the cache are those the counter has issued: if,
    before a handler of a content route runs, every key of [Cache.store]
    is positive and at most [Cache.nextHandle], then this holds again
    after every step of the handler, however the calls it awaits settle
    and whatever state it finds when it resumes (as long as that state
    satisfies the same). *)
Theorem content_route_keeps_issued getData setData (name : jsstring) (handler : Handler) :
  makeRouteWithContents getData setData name = Some handler →
  handler_keeps issued handler.
Proof.
  unfold makeRouteWithContents. intros Hh.
  repeat case_decide; simplify_eq; intros req σ HI.
  - (* getattr *)
    split; [done|]. run_sync. once constructor. intros s σ1 HI1.
    destruct s as [[[s|l]|]|e]; cbn [fst snd];
      (split; [first [by apply issued_heap | done] | once constructor]).
  - (* open *)
    split; [done|]. run_sync. once constructor. intros s σ1 HI1.
    destruct s as [[[s|l]|]|e]; cbn [fst snd];
      (split; [| by constructor]);
      first [ by apply (issued_stored σ1) | done ].
  - (* read *)
    run_sync. destruct (store σ !! req_fh req); cbn [fst snd]; (split; [done | once constructor]).
  - (* write *)
    run_sync. destruct (store σ !! req_fh req) as [so|] eqn:Hso;
      [|cbn [fst snd]; split; [done | once constructor]].
    assert (Hkept : ∀ hp, issued {| heap := hp; store := store σ; nextHandle := nextHandle σ |})
      by (intros hp; by apply issued_heap).
    assert (Hset : ∀ hp so', issued {| heap := hp;
                store := <[req_fh req := so']> (store σ); nextHandle := nextHandle σ |})
      by (intros hp so'; by eapply issued_set).
    clear Hso.
    repeat case_match; simplify_eq; cbn [fst snd heap store nextHandle];
      (split; [first [apply Hset | apply Hkept | exact HI] |]);
      try (by constructor);
      (apply keeps_await; intros s' σ1 HI1; destruct s'; cbn [fst snd];
       (split; [done | by constructor])).
  - (* release *)
    split; [|by constructor]. run_sync. by apply issued_removed.
  - (* truncate *)
    split; [done|]. run_sync. once constructor. intros s σ1 HI1.
    destruct s as [[c|]|e]; [| cbn [fst snd]; split; [done | once constructor] ..].
    assert (Hpath : ∀ hp f, issued {| heap := hp; store := f <$> store σ1;
                                      nextHandle := nextHandle σ1 |})
      by (intros hp f; by apply issued_repointed).
    assert (Hkept : ∀ hp, issued {| heap := hp; store := store σ1;
                                    nextHandle := nextHandle σ1 |})
      by (intros hp; by apply issued_heap).
    destruct c as [s|l]; cbn [fst snd heap store nextHandle];
      repeat case_match; simplify_eq; cbn [fst snd heap store nextHandle];
      (split; [first [apply Hpath | apply Hkept | exact HI1] |]);
      try (by constructor);
      (apply keeps_await; intros s' σ2 HI2; destruct s'; cbn [fst snd];
       (split; [done | by constructor])).
Qed.

Lemma content_route_keeps_issued_witness :
  handler_keeps issued (open "getTabs").
Proof.
  by apply (content_route_keeps_issued "getTabs" None (str "open")).
Defined.

(** X7. Opening a file and releasing the handle that [open] returned
    leaves [Cache.store] as it was before the [open], while the counter
    stays advanced: the handle is not given out again. *)
Theorem open_then_release_restores_store getData (req closing : Req) (σ0 σ : State)
    (c : Contents) :
  issued σ → nextHandle σ < 2 ^ 53 →
  ∃ σ1 fh,
    continue (snd (open getData req σ0)) (Resolved (Some c)) σ
    = (σ1, Done {[ "fh" := VNum fh ]})
    ∧ fh = nextHandle σ + 1
    ∧ (req_fh closing = fh →
       release closing σ1
       = ({| heap := heap σ1; store := store σ; nextHandle := fh |}, Done ∅)).
Proof.
  intros [Hn Hs] Hb.
  assert (Hnew : store σ !! (nextHandle σ + 1) = None).
  { destruct (store σ !! (nextHandle σ + 1)) as [so|] eqn:E; [|done].
    apply Hs in E. lia. }
  destruct c as [s|l]; run_sync; rewrite js_incr_exact by done;
    do 2 eexists; (split; [reflexivity|]); (split; [reflexivity|]);
    intros Hfh; cbn [heap store nextHandle]; rewrite Hfh;
    by rewrite delete_insert_id.
Qed.

Lemma open_then_release_restores_store_witness :
  ∃ σ1 fh,
    continue (snd (open "getTabs" (request 1 "open" "/tabs.json") initial))
      (Resolved (Some (CString (str "[]")))) initial
    = (σ1, Done {[ "fh" := VNum fh ]})
    ∧ fh = 1
    ∧ (req_fh (request_fh 2 "release" "/tabs.json" 1 0 0 None) = fh →
       release (request_fh 2 "release" "/tabs.json" 1 0 0 None) σ1
       = ({| heap := heap σ1; store := ∅; nextHandle := fh |}, Done ∅)).
Proof.
  apply (open_then_release_restores_store "getTabs" _ _ initial initial);
    [apply issued_initial | reflexivity].
Defined.

(** ** Reading what was written *)




(** X9. What a [write] through one handle does to the buffer of another
    handle [h]: when the two handles hold the same array (as after a
    [truncate] of their path) and the write does not go past its end, [h]
    reads the written bytes; when the write goes past the end, the writer
    gets a new array and [h] keeps the old bytes, as it does when the two
    handles hold different arrays. *)
Theorem write_is_seen_through_a_shared_array
    (setData : option Accessor) (req : Req) (σ : State) (so : StoredObject)
    (h : Z) (other : StoredObject) :
  store σ !! req_fh req = Some so → 0 ≤ req_offset req →
  h ≠ req_fh req → store σ !! h = Some other → so_object other ∈ dom (heap σ) →
  let bytes := contents σ (so_object so) in
  let bufarr := stringToUtf8Array (default [] (req_buf req)) in
  buffer (fst (write setData req σ)) h
  = if decide (so_object other = so_object so
               ∧ req_offset req + zlength bufarr ≤ zlength bytes)
    then Some (written bytes bufarr (req_offset req))
    else buffer σ h.
Proof.
  intros Hso Ho Hne Hother Hdom bytes bufarr. run_sync. rewrite Hso. cbn [so_object].
  fold bufarr. fold (contents σ (so_object so)). fold bytes.
  assert (Hfresh : fresh (dom (heap σ)) ≠ so_object other)
    by (intros Heq; rewrite <- Heq in Hdom; by apply is_fresh in Hdom).
  destruct (Z.gtb_spec (req_offset req + zlength bufarr) (zlength bytes)) as [Hgrow|Hfit].
  - destruct (write_grown bytes bufarr (req_offset req))
      as (zeros & kept & Hz & Hk & Hw); [done|lia|].
    rewrite Hz, Hk. cbn [heap store nextHandle].
    rewrite Hso. cbn [heap store nextHandle].
    rewrite !lookup_insert_eq. cbn [default from_option id]. rewrite Hw.
    rewrite decide_False by lia.
    destruct setData; cbn [fst]; unfold buffer, contents; cbn [heap store nextHandle];
      rewrite lookup_insert_ne, Hother by done;
      by rewrite !lookup_insert_ne by done.
  - rewrite write_in_place by (done || lia).
    destruct setData; cbn [fst]; unfold buffer; cbn [heap store nextHandle];
      rewrite Hother; unfold contents at 1; cbn [heap];
      (case_decide as Hsame;
       [destruct Hsame as [-> _]; by rewrite lookup_insert_eq
       |rewrite lookup_insert_ne; [done|intros Heq; apply Hsame; split; [done|lia]]]).
Qed.

Lemma write_is_seen_through_a_shared_array_witness :
  let shared := {| so_path := str "/tabs.json"; so_object := 1%positive |} in
  let σ := {| heap := {[ 1%positive := stringToUtf8Array (str "hello") ]};
              store := {[ 1 := shared; 2 := shared ]};
              nextHandle := 2 |} in
  buffer (fst (write None (request_fh 3 "write" "/tabs.json" 1 0 0 (Some (str "J"))) σ)) 2
  = Some (stringToUtf8Array (str "Jello"))
  ∧ buffer (fst (write None (request_fh 3 "write" "/tabs.json" 1 5 0 (Some (str "!"))) σ)) 2
    = Some (stringToUtf8Array (str "hello")).
Proof.
  intros shared σ. split.
  - by rewrite (write_is_seen_through_a_shared_array None _ σ shared 2 shared).
  - by rewrite (write_is_seen_through_a_shared_array None _ σ shared 2 shared).
Defined.

(** ** Arguments out of range *)

Lemma slice_to_negative (bs : list byte) (offset : Z) :
  offset < 0 →
  U8.slice bs 0 (Z.min offset (zlength bs)) = take (Z.to_nat (zlength bs + offset)) bs.
Proof.
  intros Ho. unfold U8.slice, U8.clamp, zlength.
  rewrite Z.min_l by lia. cbn [Z.ltb Z.compare].
  destruct (Z.ltb_spec offset 0); [|lia].
  rewrite Z.min_l by lia. cbn [Z.to_nat drop]. f_equal. lia.
Qed.

(** X10. A [write] with a negative offset on an open handle always throws
    a RangeError (EIO for the host) and never calls the write accessor.
    When [offset + bufarr.length] does not exceed the length of the buffer
    the script's state is unchanged. When it does, the handle has by then
    been given a new array of [offset + bufarr.length] bytes that holds the
    old bytes without their last [-offset] and zeros after them: the
    failed write has changed the cached contents. *)
Theorem write_at_negative_offset_fails
    (setData : option Accessor) (req : Req) (σ : State) (so : StoredObject) :
  store σ !! req_fh req = Some so → req_offset req < 0 →
  let bytes := contents σ (so_object so) in
  let bufarr := stringToUtf8Array (default [] (req_buf req)) in
  ∃ σ',
    write setData req σ = (σ', Raise (JsError "RangeError"))
    ∧ (req_offset req + zlength bufarr ≤ zlength bytes → σ' = σ)
    ∧ (zlength bytes < req_offset req + zlength bufarr →
       buffer σ' (req_fh req)
       = Some (resized (take (Z.to_nat (zlength bytes + req_offset req)) bytes)
                 (req_offset req + zlength bufarr))).
Proof.
  intros Hso Ho bytes bufarr. run_sync. rewrite Hso. cbn [so_object].
  fold bufarr. fold (contents σ (so_object so)). fold bytes.
  assert (Hset : ∀ target, U8.set target bufarr (req_offset req) = inl (JsError "RangeError")).
  { intros target. unfold U8.set. by destruct (Z.ltb_spec (req_offset req) 0); [|lia]. }
  destruct (Z.gtb_spec (req_offset req + zlength bufarr) (zlength bytes)) as [Hgrow|Hfit].
  - rewrite make_zeros by (unfold zlength in *; lia).
    rewrite slice_to_negative by done.
    rewrite set_at_start by (unfold zlength in *; rewrite length_take; lia).
    cbn [heap store nextHandle]. rewrite Hso. cbn [heap store nextHandle].
    rewrite !lookup_insert_eq. cbn [default from_option id]. rewrite Hset.
    eexists. split; [reflexivity|]. split; [lia|]. intros _.
    unfold buffer, contents. cbn [heap store nextHandle].
    rewrite !lookup_insert_eq. cbn [so_object default from_option id].
    unfold resized. rewrite (take_ge (take _ _)); [done|].
    unfold zlength in *. rewrite length_take. lia.
  - rewrite Hset. eexists. split; [reflexivity|]. split; [done|lia].
Qed.

Lemma write_at_negative_offset_fails_witness :
  let σ := {| heap := {[ 1%positive := stringToUtf8Array (str "hello") ]};
              store := {[ 1 := {| so_path := str "/tabs.json"; so_object := 1%positive |} ]};
              nextHandle := 1 |} in
  let req := request_fh 2 "write" "/tabs.json" 1 (-1) 0 (Some (str "0123456789")) in
  ∃ σ',
    write (Some "setTabs") req σ = (σ', Raise (JsError "RangeError"))
    ∧ buffer σ' 1 = Some (stringToUtf8Array (str "hell") ++ replicate 5 Byte.x00).
Proof.
  intros σ req.
  destruct (write_at_negative_offset_fails (Some "setTabs") req σ
              {| so_path := str "/tabs.json"; so_object := 1%positive |})
    as (σ' & Hw & _ & Hbuf); [reflexivity|reflexivity|].
  exists σ'. split; [exact Hw|]. by apply Hbuf.
Defined.

(** X11. A [truncate] to a negative size throws a RangeError (EIO for the
    host) once the read accessor has answered: the cache and every array
    that existed are left as they were, and the write accessor is not
    called. *)
Theorem truncate_to_negative_size_fails
    getData (setData : option Accessor) (req : Req) (σ0 σ : State) (c : Contents) :
  req_size req < 0 →
  ∃ σ',
    continue (snd (truncate getData setData req σ0)) (Resolved (Some c)) σ
    = (σ', Raise (JsError "RangeError"))
    ∧ store σ' = store σ
    ∧ nextHandle σ' = nextHandle σ
    ∧ ∀ l, l ∈ dom (heap σ) → heap σ' !! l = heap σ !! l.
Proof.
  intros Hs.
  assert (Hmake : U8.make (req_size req) = inl (JsError "RangeError")).
  { unfold U8.make. by destruct (Z.ltb_spec (req_size req) 0); [|lia]. }
  destruct c as [s|l]; run_sync; rewrite ?lookup_insert_eq; cbn [default from_option id].
  - rewrite decide_True by (unfold zlength; lia). rewrite Hmake.
    eexists. split; [reflexivity|]. cbn [heap store nextHandle].
    split; [done|]. split; [done|]. intros l Hl. by apply contents_alloc.
  - rewrite decide_True by (unfold zlength; lia). rewrite Hmake.
    eexists. split; [reflexivity|]. done.
Qed.

Lemma truncate_to_negative_size_fails_witness :
  ∃ σ',
    continue (snd (truncate "getTabs" (Some "setTabs")
                     (request_fh 1 "truncate" "/tabs.json" 0 0 (-1) None) initial))
      (Resolved (Some (CString (str "[]")))) initial
    = (σ', Raise (JsError "RangeError"))
    ∧ store σ' = ∅
    ∧ nextHandle σ' = 0
    ∧ ∀ l, l ∈ dom (heap initial) → heap σ' !! l = heap initial !! l.
Proof.
  by apply (truncate_to_negative_size_fails "getTabs" (Some "setTabs") _ initial initial).
Defined.

(** ** More on the dispatcher *)

(** X12. When the read accessor of a content route answers [undefined],
    [getattr] and [open] are answered with ENOENT, but [truncate] is
    answered with EIO: it reads [arr.length] of [undefined] before any
    check. In all three cases the one message is the error and the
    script's state is as before. *)
Theorem missing_contents_are_ENOENT_except_for_truncate
    (sorted : list Route) (route : Route) (vars : Vars) getData setData
    (req req' : Req) (w : World) :
  decode_buf req = inr req' →
  tryMatchRoute sorted (req_path req') = inr (route, vars) →
  route_op route = makeRouteWithContents getData setData →
  ∀ code,
    ((req_op req' = str "getattr" ∨ req_op req' = str "open") ∧ code = unix.ENOENT)
    ∨ (req_op req' = str "truncate" ∧ code = unix.EIO) →
    ∃ w' ss',
      steps [Settle (Resolved None)] (onMessage sorted req w) = Some (w', ss')
      ∧ w_port w' = w_port w ++ [error_message req' code]
      ∧ w_state w' = w_state w
      ∧ s_phase ss' = Completed.
Proof.
  intros Hd Hm Hops code Hop.
  assert (Hrun : ∀ handler, route_op route (req_op req') = Some handler →
            (∀ r σ, ∃ k, handler r σ = (σ, Await (CallGet getData r) k)
                         ∧ ∀ σ1, k (Resolved None) σ1
                                 = (σ1, Raise (match code with
                                               | 2 => UnixError unix.ENOENT
                                               | _ => JsError "TypeError"
                                               end))) →
            ∃ w' ss',
              steps [Settle (Resolved None)] (onMessage sorted req w) = Some (w', ss')
              ∧ w_port w' = w_port w ++ [error_message req' code]
              ∧ w_state w' = w_state w
              ∧ s_phase ss' = Completed).
  { intros handler Hh Hk.
    rewrite (onMessage_handler sorted req req' w route vars handler Hd Hm Hh).
    destruct (Hk (with_vars req' vars) (w_state w)) as (k & -> & Hraise).
    cbn [fst snd settle steps step s_phase armed with_state w_state].
    rewrite Hraise. rewrite settle_raise by reflexivity.
    do 2 eexists. split; [reflexivity|]. cbn [postMessage w_port w_state s_phase s_req].
    split; [|done]. do 2 f_equal.
    destruct Hop as [[_ ->]| [_ ->]]; reflexivity. }
  rewrite Hops in Hrun. unfold makeRouteWithContents in Hrun.
  destruct Hop as [[[Hop|Hop] ->]|[Hop ->]]; rewrite Hop in Hrun;
    (eapply Hrun; [reflexivity|]); intros r σ; eexists; split; reflexivity.
Qed.

Lemma missing_contents_are_ENOENT_except_for_truncate_witness :
  let req := request_fh 4 "truncate" "/tabs.json" 0 0 3 None in
  ∃ w' ss',
    steps [Settle (Resolved None)] (onMessage [tabs_route (Some "setTabs")] req world0)
    = Some (w', ss')
    ∧ w_port w' = w_port world0 ++ [error_message req unix.EIO]
    ∧ w_state w' = w_state world0
    ∧ s_phase ss' = Completed.
Proof.
  intros req.
  apply (missing_contents_are_ENOENT_except_for_truncate
           [tabs_route (Some "setTabs")] (tabs_route (Some "setTabs")) []
           "getTabs" (Some "setTabs") req req world0);
    [reflexivity | reflexivity | reflexivity | by right].
Defined.

Lemma decode_buf_error (req : Req) (e : Exn) :
  decode_buf req = inl e → e = JsError "InvalidCharacterError".
Proof.
  unfold decode_buf, Base64.atob. intros H.
  repeat case_match; by simplify_eq.
Qed.

Lemma steps_aborted (evs : list Event) (w w' : World) (ss ss' : Session) :
  (∃ e, s_phase ss = Aborted e) → timeout ss = None →
  steps evs (w, ss) = Some (w', ss') →
  w_port w' = w_port w ∧ ss' = ss ∧ forallb passive evs = true.
Proof.
  revert w. induction evs as [|ev evs IH]; intros w [e He] Ht Hsteps; cbn [steps] in Hsteps.
  { by simplify_eq. }
  destruct ev as [s| |ms|f]; cbn [step] in Hsteps.
  - by rewrite He in Hsteps.
  - by rewrite Ht in Hsteps.
  - destruct (0 <=? ms); [|done].
    apply IH in Hsteps as (Hport & Hss & Hpassive); [|by eauto|done].
    cbn [forallb passive andb]. by rewrite Hpassive.
  - apply IH in Hsteps as (Hport & Hss & Hpassive); [|by eauto|done].
    cbn [forallb passive andb]. by rewrite Hpassive.
Qed.

(** X13. A request whose [buf] is not base64 text is never answered:
    [atob] throws (an InvalidCharacterError) before the timer is set and
    outside the [try] block, so that however the run goes on - only time
    can pass and other code can run - no message is posted for it, not
    even a timeout. *)
Theorem undecodable_payload_is_never_answered
    (sorted : list Route) (req : Req) (w w' : World) (ss' : Session)
    (e : Exn) (evs : list Event) :
  decode_buf req = inl e →
  steps evs (onMessage sorted req w) = Some (w', ss') →
  e = JsError "InvalidCharacterError"
  ∧ w_port w' = w_port w
  ∧ s_phase ss' = Aborted e
  ∧ timeout ss' = None
  ∧ forallb passive evs = true.
Proof.
  intros Hd Hsteps. split; [by eapply decode_buf_error|].
  unfold onMessage in Hsteps. rewrite Hd in Hsteps.
  apply steps_aborted in Hsteps as (-> & -> & ->); cbn; eauto.
Qed.

Lemma undecodable_payload_is_never_answered_witness :
  let req := request_fh 5 "write" "/tabs.json" 1 0 0 (Some (str "aGVsb")) in
  let evs := [Elapse 2000; Interleave id] in
  ∃ w' ss',
    steps evs (onMessage [tabs_route None] req world0) = Some (w', ss')
    ∧ w_port w' = []
    ∧ timeout ss' = None.
Proof.
  intros req evs.
  destruct (steps evs (onMessage [tabs_route None] req world0)) as [[w' ss']|] eqn:Hrun;
    [|discriminate Hrun].
  destruct (undecodable_payload_is_never_answered [tabs_route None] req world0 w' ss'
              (JsError "InvalidCharacterError") evs eq_refl Hrun)
    as (_ & Hport & _ & Htimer & _).
  exists w', ss'. split; [reflexivity|]. split; [exact Hport|exact Htimer].
Defined.





(** ** More on the resolution of routes *)

Lemma appleDouble_at_eq (s : jsstring) :
  appleDouble_at s
  = match s with
    | a :: b :: c :: d :: rest =>
        (a =? 47)%N && (b =? 46)%N && (c =? 95)%N
        && forallb (λ x, negb (x =? 47)%N) (d :: rest)
    | _ => false
    end.
Proof.
  unfold appleDouble_at.
  destruct s as [|a [|b [|c [|d rest]]]];
    repeat match goal with
           | |- context [match ?x with _ => _ end] => is_var x; destruct x
           end; try reflexivity.
Qed.

Lemma no_slash_forallb (name : jsstring) :
  forallb (λ x, negb (x =? 47)%N) name = true ↔ 47%N ∉ name.
Proof.
  induction name as [|c name IH]; [split; [intros _; apply not_elem_of_nil|done]|].
  cbn [forallb]. rewrite andb_true_iff, IH, not_elem_of_cons, negb_true_iff, N.eqb_neq.
  split; (intros [Hc Hname]; split; [congruence|done]).
Qed.

Lemma appleDouble_at_spec (s : jsstring) :
  appleDouble_at s = true ↔ ∃ name, s = str "/._" ++ name ∧ name ≠ [] ∧ 47%N ∉ name.
Proof.
  rewrite appleDouble_at_eq. split.
  - destruct s as [|a [|b [|c [|d rest]]]]; try done.
    rewrite !andb_true_iff, !N.eqb_eq, no_slash_forallb.
    intros [[[-> ->] ->] Hname]. by exists (d :: rest).
  - intros (name & -> & Hne & Hname). destruct name as [|d rest]; [done|].
    apply no_slash_forallb in Hname.
    change (str "/._" ++ d :: rest) with (47 :: 46 :: 95 :: d :: rest)%N.
    cbv beta iota. by rewrite Hname.
Qed.

Lemma appleDouble_spec (path : jsstring) :
  appleDouble path = true
  ↔ ∃ dir name, path = dir ++ str "/._" ++ name ∧ name ≠ [] ∧ 47%N ∉ name.
Proof.
  induction path as [|c path IH].
  - split; [done|]. intros (dir & name & H & _). by destruct dir.
  - cbn [appleDouble]. rewrite orb_true_iff, appleDouble_at_spec, IH. split.
    + intros [(name & -> & ?)|(dir & name & -> & ?)].
      * by exists [], name.
      * by exists (c :: dir), name.
    + intros (dir & name & Hpath & Hname). destruct dir as [|c' dir].
      * left. by exists name.
      * right. injection Hpath as -> ->. by exists dir, name.
Qed.

(** X15. Resolution fails with ENOTSUP exactly for the paths whose last
    component is an AppleDouble name: the path ends in a slash, a dot, an
    underscore and at least one more character, none of them a slash.
    This is decided before any route is tried, so such a path is refused
    even when a route matches it. *)
Theorem resolution_refuses_exactly_the_AppleDouble_names
    (sorted : list Route) (path : jsstring) :
  tryMatchRoute sorted path = inl (UnixError unix.ENOTSUP)
  ↔ ∃ dir name, path = dir ++ str "/._" ++ name ∧ name ≠ [] ∧ 47%N ∉ name.
Proof.
  rewrite <- appleDouble_spec. unfold tryMatchRoute.
  destruct (appleDouble path); [done|].
  split; [|done]. by destruct (first_match sorted path).
Qed.

Lemma with_var_count_insert (k : Z) (a : Route) (l : list Route) :
  with_var_count k (insert_route a l) = with_var_count k (a :: l).
Proof.
  unfold with_var_count. induction l as [|b l IH]; [done|]. cbn [insert_route].
  unfold compare_routes. destruct (Z.leb_spec (__matchVarCount a - __matchVarCount b) 0);
    [done|].
  rewrite (filter_cons _ b), IH, !filter_cons.
  repeat case_decide; try done; lia.
Qed.

(** X16. Sorting the routes keeps the order of registration among routes
    with the same number of variables: for every [k], the routes with [k]
    variables come in [sortedRoutes] in the order they have in
    [Object.values(Routes)]. Of two matching routes with equally many
    variables, the one registered first is tried first. *)
Theorem sortedRoutes_keeps_registration_order (Routes : RoutesT) (k : Z) :
  with_var_count k (sortedRoutes Routes) = with_var_count k (values Routes).
Proof.
  unfold sortedRoutes. induction (values Routes) as [|a l IH]; [done|].
  cbn [sort_routes]. rewrite with_var_count_insert.
  unfold with_var_count in *. by rewrite !filter_cons, IH.
Qed.

(** ** The text encoder and the text decoder *)

Ltac euclid_lia := zify; Z.to_euclidean_division_equations; lia.

Section utf8.

Import Utf8.
Local Open Scope N_scope.

Lemma to_N_byte_of_N (n : N) : n < 256 → Byte.to_N (byte_of_N n) = n.
Proof.
  intros Hn. unfold byte_of_N. rewrite N.mod_small by done.
  destruct (Byte.of_N n) as [b|] eqn:E.
  - by apply Byte.to_of_N.
  - apply Byte.of_N_None_iff in E. lia.
Qed.

Lemma land_disjoint (x y n : N) : y < 2 ^ n → N.land (x * 2 ^ n) y = 0.
Proof.
  intros Hy. apply N.bits_inj. intros i. rewrite N.land_spec, N.bits_0.
  destruct (N.lt_ge_cases i n) as [Hlt|Hge].
  - by rewrite N.mul_pow2_bits_low.
  - rewrite andb_comm. destruct (N.eq_dec y 0) as [->|Hne]; [by rewrite N.bits_0|].
    rewrite N.bits_above_log2; [done|].
    apply N.lt_le_trans with n; [|done]. apply N.log2_lt_pow2; lia.
Qed.

Lemma lor_shifted (x y n : N) : y < 2 ^ n → N.lor (x * 2 ^ n) y = x * 2 ^ n + y.
Proof.
  intros Hy. rewrite <- N.lxor_lor, <- N.add_nocarry_lxor; by try apply land_disjoint.
Qed.

Lemma lor_80 (x : N) : x < 64 → N.lor 0x80 x = 0x80 + x.
Proof. intros H. apply (lor_shifted 2 x 6). cbn. lia. Qed.

Lemma lor_C0 (x : N) : x < 64 → N.lor 0xC0 x = 0xC0 + x.
Proof. intros H. apply (lor_shifted 3 x 6). cbn. lia. Qed.

Lemma lor_E0 (x : N) : x < 32 → N.lor 0xE0 x = 0xE0 + x.
Proof. intros H. apply (lor_shifted 7 x 5). cbn. lia. Qed.

Lemma lor_F0 (x : N) : x < 16 → N.lor 0xF0 x = 0xF0 + x.
Proof. intros H. apply (lor_shifted 15 x 4). cbn. lia. Qed.

Lemma shiftr_6 (x : N) : N.shiftr x 6 = x / 64.
Proof. by rewrite N.shiftr_div_pow2. Qed.

Lemma shiftr_12 (x : N) : N.shiftr x 12 = x / 4096.
Proof. by rewrite N.shiftr_div_pow2. Qed.

Lemma shiftr_18 (x : N) : N.shiftr x 18 = x / 262144.
Proof. by rewrite N.shiftr_div_pow2. Qed.

Lemma land_3F (x : N) : N.land x 0x3F = x mod 64.
Proof. exact (N.land_ones x 6). Qed.

Lemma lead_ascii (b : N) : b < 0x80 → lead b = ([b], dstart).
Proof. intros H. unfold lead. by destruct (N.leb_spec b 0x7F); [|lia]. Qed.

Lemma lead_2 (h : N) :
  2 ≤ h < 32 → lead (0xC0 + h) = ([], DState h 0 1 0x80 0xBF).
Proof.
  intros H. unfold lead.
  destruct (N.leb_spec (0xC0 + h) 0x7F); [lia|].
  destruct (N.leb_spec 0xC2 (0xC0 + h)); [|lia].
  destruct (N.leb_spec (0xC0 + h) 0xDF); [|lia]. cbn [andb].
  do 2 f_equal. change 0x1F with (N.ones 5). rewrite N.land_ones.
  change (2 ^ 5) with 32. euclid_lia.
Qed.

Lemma lead_3 (a : N) :
  a < 16 →
  lead (0xE0 + a)
  = ([], DState a 0 2 (if a =? 0 then 0xA0 else 0x80) (if a =? 13 then 0x9F else 0xBF)).
Proof.
  intros H. unfold lead.
  destruct (N.leb_spec (0xE0 + a) 0x7F); [lia|].
  destruct (N.leb_spec 0xC2 (0xE0 + a)); [|lia].
  destruct (N.leb_spec (0xE0 + a) 0xDF); [lia|]. cbn [andb].
  destruct (N.leb_spec 0xE0 (0xE0 + a)); [|lia].
  destruct (N.leb_spec (0xE0 + a) 0xEF); [|lia]. cbn [andb].
  do 2 f_equal.
  f_equal.
  - change 0xF with (N.ones 4). rewrite N.land_ones. change (2 ^ 4) with 16. euclid_lia.
  - destruct (N.eqb_spec (0xE0 + a) 0xE0), (N.eqb_spec a 0); try done; lia.
  - destruct (N.eqb_spec (0xE0 + a) 0xED), (N.eqb_spec a 13); try done; lia.
Qed.

Lemma lead_4 (a : N) :
  a ≤ 4 →
  lead (0xF0 + a)
  = ([], DState a 0 3 (if a =? 0 then 0x90 else 0x80) (if a =? 4 then 0x8F else 0xBF)).
Proof.
  intros H. unfold lead.
  destruct (N.leb_spec (0xF0 + a) 0x7F); [lia|].
  destruct (N.leb_spec 0xC2 (0xF0 + a)); [|lia].
  destruct (N.leb_spec (0xF0 + a) 0xDF); [lia|]. cbn [andb].
  destruct (N.leb_spec 0xE0 (0xF0 + a)); [|lia].
  destruct (N.leb_spec (0xF0 + a) 0xEF); [lia|]. cbn [andb].
  destruct (N.leb_spec 0xF0 (0xF0 + a)); [|lia].
  destruct (N.leb_spec (0xF0 + a) 0xF4); [|lia]. cbn [andb].
  do 2 f_equal.
  f_equal.
  - change 0x7 with (N.ones 3). rewrite N.land_ones. change (2 ^ 3) with 8. euclid_lia.
  - destruct (N.eqb_spec (0xF0 + a) 0xF0), (N.eqb_spec a 0); try done; lia.
  - destruct (N.eqb_spec (0xF0 + a) 0xF4), (N.eqb_spec a 4); try done; lia.
Qed.

Lemma dstep_continue (cp seen needed lo hi x : N) :
  needed ≠ 0 → lo ≤ 0x80 + x ≤ hi → x < 64 →
  dstep (DState cp seen needed lo hi) (0x80 + x)
  = if seen + 1 =? needed then ([cp * 64 + x], dstart)
    else ([], DState (cp * 64 + x) (seen + 1) needed 0x80 0xBF).
Proof.
  intros Hneeded Hrange Hx. unfold dstep.
  cbn [bytes_needed lower_boundary upper_boundary code_point bytes_seen].
  destruct (N.eqb_spec needed 0); [done|].
  destruct (N.leb_spec lo (0x80 + x)); [|lia].
  destruct (N.leb_spec (0x80 + x) hi); [|lia]. cbn [andb].
  assert (N.lor (N.shiftl cp 6) (N.land (0x80 + x) 0x3F) = cp * 64 + x) as ->; [|done].
  rewrite land_3F, N.shiftl_mul_pow2.
  replace ((0x80 + x) mod 64) with x by euclid_lia.
  by apply lor_shifted.
Qed.

Lemma dstep_start (b : N) : dstep dstart b = lead b.
Proof. reflexivity. Qed.

Lemma drun_cons (st : dstate) (b : byte) (rest : list byte) :
  drun st (b :: rest)
  = (dstep st (Byte.to_N b)).1 ++ drun (dstep st (Byte.to_N b)).2 rest.
Proof. cbn [drun]. by destruct (dstep st (Byte.to_N b)). Qed.

Lemma drun_encode_cp (cp : N) (rest : list byte) :
  scalar cp → drun dstart (encode_cp cp ++ rest) = cp :: drun dstart rest.
Proof.
  intros Hcp. unfold scalar in Hcp. unfold encode_cp.
  destruct (N.ltb_spec cp 0x80) as [H1|H1].
  { cbn [app]. rewrite drun_cons, to_N_byte_of_N by lia.
    by rewrite dstep_start, lead_ascii. }
  destruct (N.ltb_spec cp 0x800) as [H2|H2].
  { cbn [app]. rewrite shiftr_6, land_3F.
    rewrite lor_C0, lor_80 by euclid_lia.
    rewrite drun_cons, to_N_byte_of_N by euclid_lia.
    rewrite dstep_start, lead_2 by euclid_lia. cbn [fst snd app].
    rewrite drun_cons, to_N_byte_of_N by euclid_lia.
    rewrite dstep_continue by (done || euclid_lia). simpl (_ =? _); cbn [fst snd app].
    f_equal. euclid_lia. }
  destruct (N.ltb_spec cp 0x10000) as [H3|H3].
  { cbn [app]. rewrite shiftr_6, shiftr_12, !land_3F.
    rewrite lor_E0, !lor_80 by euclid_lia.
    rewrite drun_cons, to_N_byte_of_N by euclid_lia.
    rewrite dstep_start, lead_3 by euclid_lia. cbn [fst snd app].
    rewrite drun_cons, to_N_byte_of_N by euclid_lia.
    rewrite dstep_continue; [|done| |euclid_lia].
    2:{ destruct (N.eqb_spec (cp / 4096) 0), (N.eqb_spec (cp / 4096) 13); euclid_lia. }
    simpl (_ =? _); cbn [fst snd app].
    rewrite drun_cons, to_N_byte_of_N by euclid_lia.
    rewrite dstep_continue by (done || euclid_lia). simpl (_ =? _); cbn [fst snd app].
    f_equal. euclid_lia. }
  cbn [app]. rewrite shiftr_6, shiftr_12, shiftr_18, !land_3F.
  rewrite lor_F0, !lor_80 by euclid_lia.
  rewrite drun_cons, to_N_byte_of_N by euclid_lia.
  rewrite dstep_start, lead_4 by euclid_lia. cbn [fst snd app].
  rewrite drun_cons, to_N_byte_of_N by euclid_lia.
  rewrite dstep_continue; [|done| |euclid_lia].
  2:{ destruct (N.eqb_spec (cp / 262144) 0), (N.eqb_spec (cp / 262144) 4); euclid_lia. }
  simpl (_ =? _); cbn [fst snd app].
  rewrite drun_cons, to_N_byte_of_N by euclid_lia.
  rewrite dstep_continue by (done || euclid_lia). simpl (_ =? _); cbn [fst snd app].
  rewrite drun_cons, to_N_byte_of_N by euclid_lia.
  rewrite dstep_continue by (done || euclid_lia). simpl (_ =? _); cbn [fst snd app].
  f_equal. euclid_lia.
Qed.

Lemma drun_encode (cps : list N) :
  Forall scalar cps → drun dstart (flat_map encode_cp cps) = cps.
Proof.
  induction 1 as [|cp cps Hcp _ IH]; [done|].
  cbn [flat_map]. by rewrite drun_encode_cp, IH.
Qed.

Lemma list_pair_ind {A} (P : list A → Prop) :
  P [] → (∀ c, P [c]) →
  (∀ c d rest, P rest → P (d :: rest) → P (c :: d :: rest)) →
  ∀ s, P s.
Proof.
  intros Hnil Hone Hstep s.
  assert (H : P s ∧ ∀ c, P (c :: s)); [|by destruct H].
  induction s as [|d rest [IH1 IH2]]; [by split|].
  split; [apply IH2|]. intros c. by apply Hstep.
Qed.

Lemma code_points_scalar (s : jsstring) :
  Forall (λ c, c < 0x10000) s → Forall scalar (code_points s).
Proof.
  induction s as [|c|c d rest IH1 IH2] using list_pair_ind; intros Hs.
  - constructor.
  - apply Forall_cons in Hs as [Hc _]. cbn [code_points].
    assert (Hreplaced : scalar 0xFFFD) by (unfold scalar; lia).
    destruct (is_high_surrogate c) eqn:Hhigh; [by apply Forall_singleton|].
    destruct (is_low_surrogate c) eqn:Hlow; apply Forall_singleton; [done|].
    unfold is_high_surrogate in Hhigh. unfold is_low_surrogate in Hlow.
    unfold scalar.
    destruct (N.leb_spec 0xD800 c), (N.leb_spec c 0xDBFF), (N.leb_spec 0xDC00 c),
      (N.leb_spec c 0xDFFF); cbn [andb] in Hhigh, Hlow; try discriminate; lia.
  - apply Forall_cons in Hs as [Hc Hs]. pose proof Hs as Hs'.
    apply Forall_cons in Hs' as [Hd Hrest].
    specialize (IH1 Hrest). specialize (IH2 Hs).
    change (code_points (c :: d :: rest))
      with (if is_high_surrogate c then
              if is_low_surrogate d
              then (0x10000 + N.shiftl (c - 0xD800) 10 + (d - 0xDC00)) :: code_points rest
              else 0xFFFD :: code_points (d :: rest)
            else if is_low_surrogate c then 0xFFFD :: code_points (d :: rest)
            else c :: code_points (d :: rest)).
    assert (Hreplaced : scalar 0xFFFD) by (unfold scalar; lia).
    destruct (is_high_surrogate c) eqn:Hhigh.
    + destruct (is_low_surrogate d) eqn:Hlow; [|by constructor].
      constructor; [|exact IH1].
      unfold is_high_surrogate in Hhigh. unfold is_low_surrogate in Hlow.
      apply andb_true_iff in Hhigh as [Hc1%N.leb_le Hc2%N.leb_le].
      apply andb_true_iff in Hlow as [Hd1%N.leb_le Hd2%N.leb_le].
      rewrite N.shiftl_mul_pow2. change (2 ^ 10) with 1024. unfold scalar. lia.
    + destruct (is_low_surrogate c) eqn:Hlow; [by constructor|].
      constructor; [|exact IH2].
      unfold is_high_surrogate in Hhigh. unfold is_low_surrogate in Hlow.
      unfold scalar.
      destruct (N.leb_spec 0xD800 c), (N.leb_spec c 0xDBFF), (N.leb_spec 0xDC00 c),
        (N.leb_spec c 0xDFFF); cbn [andb] in Hhigh, Hlow; try discriminate; lia.
Qed.

(** What the decoder makes of the encoding of a string of 16-bit units:
    its code points, a lone surrogate read as U+FFFD, without a byte order
    mark in front. *)
Lemma decode_encode (s : jsstring) :
  Forall (λ c, c < 0x10000) s →
  decode (encode s) = flat_map units_of_cp (strip_bom (code_points s)).
Proof.
  intros Hs. unfold decode, encode. by rewrite drun_encode by by apply code_points_scalar.
Qed.

Lemma strip_bom_eq (cps : list N) :
  strip_bom cps
  = match cps with
    | c :: rest => if c =? 0xFEFF then rest else cps
    | [] => []
    end.
Proof.
  unfold strip_bom. destruct cps as [|c rest]; [done|].
  repeat match goal with
         | |- context [match ?x with _ => _ end] => is_var x; destruct x
         end; reflexivity.
Qed.

Lemma without_bom_eq (s : jsstring) :
  without_bom s
  = match s with
    | c :: rest => if c =? 0xFEFF then rest else s
    | [] => []
    end.
Proof. exact (strip_bom_eq s). Qed.

Lemma well_formed_bounded (s : jsstring) :
  well_formed s = true → Forall (λ c, c < 0x10000) s.
Proof.
  induction s as [|c|c d rest IH1 IH2] using list_pair_ind; cbn [well_formed].
  - constructor.
  - unfold is_high_surrogate, is_low_surrogate.
    destruct (N.leb_spec 0xD800 c), (N.leb_spec c 0xDBFF), (N.leb_spec 0xDC00 c),
      (N.leb_spec c 0xDFFF), (N.ltb_spec c 0x10000); cbn [andb negb]; try done;
      intros _; repeat constructor; lia.
  - fold (well_formed (d :: rest)). unfold is_high_surrogate, is_low_surrogate at 1 2.
    destruct (N.leb_spec 0xD800 c), (N.leb_spec c 0xDBFF); cbn [andb].
    + unfold is_low_surrogate.
      destruct (N.leb_spec 0xDC00 d), (N.leb_spec d 0xDFFF); cbn [andb]; try done.
      intros Hrest. repeat constructor; try lia. by apply IH1.
    + destruct (N.leb_spec 0xDC00 c), (N.leb_spec c 0xDFFF), (N.ltb_spec c 0x10000);
        cbn [andb negb]; try done; intros Hrest; constructor; (lia || by apply IH2).
    + destruct (N.leb_spec 0xDC00 c), (N.leb_spec c 0xDFFF), (N.ltb_spec c 0x10000);
        cbn [andb negb]; try done; intros Hrest; constructor; (lia || by apply IH2).
    + lia.
Qed.

Lemma units_of_pair (c d : N) :
  0xD800 ≤ c ≤ 0xDBFF → 0xDC00 ≤ d ≤ 0xDFFF →
  units_of_cp (0x10000 + N.shiftl (c - 0xD800) 10 + (d - 0xDC00)) = [c; d].
Proof.
  intros Hc Hd. unfold units_of_cp. rewrite N.shiftl_mul_pow2. change (2 ^ 10) with 1024.
  destruct (N.ltb_spec (0x10000 + (c - 0xD800) * 1024 + (d - 0xDC00)) 0x10000); [lia|].
  rewrite N.shiftr_div_pow2. change 0x3FF with (N.ones 10). rewrite N.land_ones.
  change (2 ^ 10) with 1024. f_equal; [|f_equal]; euclid_lia.
Qed.

(** The code points of a well-formed string, and the units they stand
    for. *)
Lemma well_formed_code_points (s : jsstring) :
  well_formed s = true →
  flat_map units_of_cp (code_points s) = s
  ∧ match s with
    | c :: _ => ∃ cp cps, code_points s = cp :: cps ∧ (cp = 0xFEFF ↔ c = 0xFEFF)
                          ∧ flat_map units_of_cp cps = drop (length (units_of_cp cp)) s
    | [] => True
    end.
Proof.
  induction s as [|c|c d rest IH1 IH2] using list_pair_ind; cbn [well_formed].
  - done.
  - cbn [code_points].
    destruct (is_high_surrogate c); [done|].
    destruct (is_low_surrogate c); [done|]. cbn [negb andb].
    destruct (N.ltb_spec c 0x10000) as [Hc|Hc]; [|done]. intros _.
    assert (Hunits : units_of_cp c = [c]).
    { unfold units_of_cp. by destruct (N.ltb_spec c 0x10000); [|lia]. }
    cbn [flat_map]. rewrite Hunits. split; [done|].
    exists c, []. by rewrite Hunits.
  - fold (well_formed (d :: rest)).
    change (code_points (c :: d :: rest))
      with (if is_high_surrogate c then
              if is_low_surrogate d
              then (0x10000 + N.shiftl (c - 0xD800) 10 + (d - 0xDC00)) :: code_points rest
              else 0xFFFD :: code_points (d :: rest)
            else if is_low_surrogate c then 0xFFFD :: code_points (d :: rest)
            else c :: code_points (d :: rest)).
    destruct (is_high_surrogate c) eqn:Hhigh.
    + destruct (is_low_surrogate d) eqn:Hlow; cbn [andb]; [|done].
      intros Hrest. destruct (IH1 Hrest) as [IH _].
      unfold is_high_surrogate in Hhigh. unfold is_low_surrogate in Hlow.
      apply andb_true_iff in Hhigh as [Hc1%N.leb_le Hc2%N.leb_le].
      apply andb_true_iff in Hlow as [Hd1%N.leb_le Hd2%N.leb_le].
      cbn [flat_map]. rewrite units_of_pair, IH by done. split; [done|].
      do 2 eexists. split; [reflexivity|].
      rewrite units_of_pair by done. split; [|done].
      rewrite N.shiftl_mul_pow2. change (2 ^ 10) with 1024. lia.
    + destruct (is_low_surrogate c) eqn:Hlow; cbn [andb negb]; [done|].
      destruct (N.ltb_spec c 0x10000) as [Hc|Hc]; cbn [andb]; [|done].
      intros Hrest. destruct (IH2 Hrest) as [IH _].
      assert (Hunits : units_of_cp c = [c]).
      { unfold units_of_cp. by destruct (N.ltb_spec c 0x10000); [|lia]. }
      cbn [flat_map]. rewrite Hunits, IH. split; [done|].
      exists c, (code_points (d :: rest)). by rewrite Hunits.
Qed.

Lemma decode_encode_well_formed (s : jsstring) :
  well_formed s = true → decode (encode s) = without_bom s.
Proof.
  intros Hwf. rewrite decode_encode by by apply well_formed_bounded.
  destruct (well_formed_code_points s Hwf) as [Hall Hhead].
  rewrite strip_bom_eq, without_bom_eq. destruct s as [|c rest]; [done|].
  destruct Hhead as (cp & cps & Hcps & Hbom & Hrest). rewrite Hcps in *.
  destruct (N.eqb_spec cp 0xFEFF) as [Hcp|Hcp], (N.eqb_spec c 0xFEFF) as [Hc|Hc];
    try (by apply Hbom in Hcp); try (by apply Hbom in Hc); [|done].
  rewrite Hrest. by subst cp.
Qed.

End utf8.

(** X17. Decoding the UTF-8 encoding of a string gives the string back,
    when every surrogate of the string is part of a pair - except that a
    byte order mark U+FEFF in front of the string is dropped by the
    decoder. *)
Theorem decoding_gives_a_well_formed_string_back (s : jsstring) :
  well_formed s = true →
  utf8ArrayToString (stringToUtf8Array s) = without_bom s.
Proof. apply decode_encode_well_formed. Qed.

Lemma decoding_gives_a_well_formed_string_back_witness :
  utf8ArrayToString (stringToUtf8Array [0xFEFF; 0x7B; 0xE9; 0x20AC; 0xD83D; 0xDE00; 0x7D]%N)
  = [0x7B; 0xE9; 0x20AC; 0xD83D; 0xDE00; 0x7D]%N.
Proof.
  by apply (decoding_gives_a_well_formed_string_back
              [0xFEFF; 0x7B; 0xE9; 0x20AC; 0xD83D; 0xDE00; 0x7D]%N).
Defined.

(** A lone surrogate does not come back: it is encoded as U+FFFD. *)
Example lone_surrogate_is_replaced :
  utf8ArrayToString (stringToUtf8Array [0x41; 0xD83D; 0x42]%N) = [0x41; 0xFFFD; 0x42]%N.
Proof. reflexivity. Qed.

Lemma well_formed_binary (payload : list byte) :
  well_formed (fromCharCode payload) = true.
Proof.
  induction payload as [|b payload IH]; [done|].
  cbn [fromCharCode map]. fold (fromCharCode payload).
  pose proof (Byte.to_N_bounded b) as Hb.
  assert (Hwf : ∀ c rest, (c < 256)%N → well_formed (c :: rest) = well_formed rest).
  { intros c rest Hc. cbn [well_formed]. unfold Utf8.is_high_surrogate, Utf8.is_low_surrogate.
    destruct (N.leb_spec 0xD800 c); [lia|].
    destruct (N.leb_spec 0xDC00 c); [lia|].
    by destruct (N.ltb_spec c 0x10000); [|lia]. }
  rewrite Hwf by lia. exact IH.
Qed.

Lemma without_bom_binary (payload : list byte) :
  without_bom (fromCharCode payload) = fromCharCode payload.
Proof.
  rewrite without_bom_eq. destruct payload as [|b payload]; [done|].
  cbn [fromCharCode map]. pose proof (Byte.to_N_bounded b) as Hb.
  by destruct (N.eqb_spec (Byte.to_N b) 0xFEFF); [lia|].
Qed.

Lemma length_reencoded (payload : list byte) :
  (length payload ≤ length (flat_map reencoded payload))%nat.
Proof.
  induction payload as [|b payload IH]; [done|].
  cbn [flat_map]. rewrite length_app.
  assert (1 ≤ length (reencoded b))%nat
    by (unfold reencoded; destruct (Byte.to_N b <? 128)%N; cbn [length]; lia).
  cbn [length]. lia.
Qed.

Lemma written_over (bytes bufarr : list byte) :
  zlength bytes ≤ zlength bufarr → written bytes bufarr 0 = bufarr.
Proof.
  intros Hlen. unfold written, zlength in *. cbn [Z.to_nat take Nat.sub replicate app Nat.add].
  rewrite drop_ge by lia. apply app_nil_r.
Qed.

(** X18. A [write] request at offset 0 whose payload is at least as long
    as the cached buffer - the whole file written at once - hands the
    write accessor the payload as a binary string, one character per
    byte, not the text that the payload encodes: the UTF-8 bytes of a
    non-ASCII character reach the accessor as two or more characters. No
    message is posted before the accessor's promise settles. *)
Theorem whole_file_write_hands_the_accessor_a_binary_string
    (sorted : list Route) (route : Route) (vars : Vars) getData (setData : Accessor)
    (req : Req) (w : World) (so : StoredObject) (payload : list byte) :
  req_buf req = Some (Base64.encode (fromCharCode payload)) →
  req_op req = str "write" → req_offset req = 0 →
  tryMatchRoute sorted (req_path req) = inr (route, vars) →
  route_op route = makeRouteWithContents getData (Some setData) →
  store (w_state w) !! req_fh req = Some so →
  zlength (contents (w_state w) (so_object so)) ≤ zlength payload →
  ∃ req' w' ss' k,
    decode_buf req = inr req'
    ∧ onMessage sorted req w = (w', ss')
    ∧ s_phase ss'
      = Waiting (CallSet setData (with_vars req' vars) (fromCharCode payload)) k
    ∧ w_port w' = w_port w.
Proof.
  intros Hbuf Hop Hoff Hm Hops Hso Hlen.
  destruct (decode_buf_bytes req payload Hbuf) as (req' & Hd & Hbuf').
  destruct (decode_buf_fields req req' Hd) as (_ & Hop' & Hpath & Hfh & Hoff' & _).
  rewrite <- Hpath in Hm.
  assert (Hh : route_op route (req_op req') = Some (write (Some setData))).
  { by rewrite Hops, Hop', Hop. }
  rewrite (onMessage_handler sorted req req' w route vars _ Hd Hm Hh).
  destruct (write_effect (Some setData) (with_vars req' vars) (w_state w) so)
    as (σ' & Hw & _); [by rewrite <- Hfh in Hso | cbn [with_vars req_offset]; lia|].
  cbn [with_vars req_buf req_offset req_fh] in Hw. rewrite Hbuf', Hoff', Hoff in Hw.
  cbn [default from_option id] in Hw.
  rewrite written_over in Hw.
  2:{ rewrite encode_binary. pose proof (length_reencoded payload).
      unfold zlength in *. lia. }
  unfold utf8ArrayToString in Hw.
  change (Utf8.decode (stringToUtf8Array (fromCharCode payload)))
    with (utf8ArrayToString (stringToUtf8Array (fromCharCode payload))) in Hw.
  rewrite decode_encode_well_formed, without_bom_binary in Hw by apply well_formed_binary.
  fold (with_vars req' vars) in Hw. rewrite Hw. cbn [fst snd].
  exists req'. unfold await. cbn [settle]. do 3 eexists.
  split; [done|]. split; [reflexivity|]. split; reflexivity.
Qed.

Lemma whole_file_write_hands_the_accessor_a_binary_string_witness :
  let sorted := [tabs_route (Some "setTabs")] in
  let opened := answered sorted (request 1 "open" "/tabs.json")
                  [Resolved (Some (CString []))] world0 in
  (* the UTF-8 bytes of e-acute *)
  let payload := [Byte.xc3; Byte.xa9] in
  let req := request_fh 2 "write" "/tabs.json" 1 0 0
               (Some (Base64.encode (fromCharCode payload))) in
  ∃ req' w' ss' k,
    decode_buf req = inr req'
    ∧ onMessage sorted req opened = (w', ss')
    ∧ s_phase ss' = Waiting (CallSet "setTabs" (with_vars req' []) [0xC3; 0xA9]%N) k
    ∧ w_port w' = w_port opened.
Proof.
  intros sorted opened payload req.
  apply (whole_file_write_hands_the_accessor_a_binary_string sorted
           (tabs_route (Some "setTabs")) [] "getTabs" "setTabs" req opened
           {| so_path := str "/tabs.json"; so_object := 1%positive |} payload);
    try reflexivity.
  by vm_compute.
Defined.

(** X19. A [truncate] to the length the contents already have hands the
    write accessor the text that the read accessor returned, when that
    text is well formed (and without a byte order mark in front, which
    would be dropped). *)
Theorem truncate_to_the_same_size_writes_the_text_back
    getData (setData : Accessor) (req : Req) (σ0 σ : State) (s : jsstring) :
  well_formed s = true →
  req_size req = zlength (stringToUtf8Array s) →
  ∃ σ' arr,
    continue (snd (truncate getData (Some setData) req σ0)) (Resolved (Some (CString s))) σ
    = (σ', await (CallSet setData req (without_bom s)) (λ _, ret (Done ∅)))
    ∧ contents σ' arr = stringToUtf8Array s
    ∧ store σ' = repointed (req_path req) arr <$> store σ.
Proof.
  intros Hwf Hsize.
  destruct (truncate_effect getData (Some setData) req σ0 σ (CString s))
    as (σ' & arr & Hrun & Hnew & Hstore & _); [unfold zlength in Hsize; lia|].
  cbn [bytes_of] in Hrun, Hnew. rewrite Hsize, resized_same_length in Hrun, Hnew.
  unfold utf8ArrayToString at 1 in Hrun.
  change (Utf8.decode (stringToUtf8Array s))
    with (utf8ArrayToString (stringToUtf8Array s)) in Hrun.
  rewrite decode_encode_well_formed in Hrun by done.
  by exists σ', arr.
Qed.

Lemma truncate_to_the_same_size_writes_the_text_back_witness :
  let req := request_fh 1 "truncate" "/tabs.json" 0 0 4 None in
  ∃ σ' arr,
    continue (snd (truncate "getTabs" (Some "setTabs") req initial))
      (Resolved (Some (CString [0x5B; 0xE9; 0x5D]%N))) initial
    = (σ', await (CallSet "setTabs" req [0x5B; 0xE9; 0x5D]%N) (λ _, ret (Done ∅)))
    ∧ contents σ' arr = [Byte.x5b; Byte.xc3; Byte.xa9; Byte.x5d]
    ∧ store σ' = repointed (str "/tabs.json") arr <$> ∅.
Proof.
  intros req.
  by apply (truncate_to_the_same_size_writes_the_text_back "getTabs" "setTabs" req
              initial initial [0x5B; 0xE9; 0x5D]%N).
Defined.

(** ** Operations that only read *)

(** X20. [getattr] and [read] never change the cache: whatever the read
    accessor answers and whatever the arguments are, [Cache.store] and
    [Cache.nextHandle] are after every step of these handlers what they
    were before it. *)
Theorem getattr_and_read_leave_the_cache
    getData setData (entries : gmap Z StoredObject) (counter : Z) :
  handler_keeps (cache_is entries counter) (getattr getData setData)
  ∧ handler_keeps (cache_is entries counter) read.
Proof.
  split; intros req σ HI.
  - split; [done|]. run_sync. once constructor. intros s σ1 HI1.
    destruct s as [[[s|l]|]|e]; cbn [fst snd]; (split; [done | once constructor]).
  - run_sync. destruct (store σ !! req_fh req); cbn [fst snd]; (split; [done | once constructor]).
Qed.




(** ** A handler that finishes after the timeout *)

(** X22. When the read accessor answers an [open] only after the timer
    has fired, the host has been sent ETIMEDOUT and is sent nothing else,
    but the handler still runs to its end: the contents are stored in the
    cache under a new handle that no message carries, so that the entry
    cannot be released by the host. *)
Theorem late_open_leaves_an_entry_behind
    (sorted : list Route) (route : Route) (vars : Vars) getData setData
    (req req' : Req) (w : World) (ms : Z) (c : Contents) :
  decode_buf req = inr req' →
  tryMatchRoute sorted (req_path req') = inr (route, vars) →
  route_op route = makeRouteWithContents getData setData →
  req_op req' = str "open" →
  1000 ≤ ms → issued (w_state w) → nextHandle (w_state w) < 2 ^ 53 →
  let fh := nextHandle (w_state w) + 1 in
  ∃ w' ss',
    steps [Elapse ms; TimerFires; Settle (Resolved (Some c))] (onMessage sorted req w)
    = Some (w', ss')
    ∧ s_phase ss' = Completed
    ∧ w_port w' = w_port w ++ [error_message req' unix.ETIMEDOUT]
    ∧ store (w_state w) !! fh = None
    ∧ is_Some (store (w_state w') !! fh)
    ∧ nextHandle (w_state w') = fh.
Proof.
  intros Hd Hm Hops Hop Hms [Hn Hs] Hb fh.
  assert (Hh : route_op route (req_op req') = Some (open getData)).
  { by rewrite Hops, Hop. }
  rewrite (onMessage_handler sorted req req' w route vars _ Hd Hm Hh).
  assert (Hnew : store (w_state w) !! fh = None).
  { destruct (store (w_state w) !! fh) as [so|] eqn:E; [|done].
    apply Hs in E. unfold fh in E. lia. }
  run_sync. cbn [settle steps step armed with_state w_state w_now w_port timeout
                 s_phase s_req didTimeout postMessage].
  destruct (Z.leb_spec 0 ms); [|lia].
  cbn [steps step armed with_state w_state w_now w_port timeout
       s_phase s_req didTimeout postMessage].
  destruct (Z.leb_spec (w_now w + 1000) (w_now w + ms)); [|lia].
  cbn [steps step armed with_state w_state w_now w_port timeout
       s_phase s_req didTimeout postMessage].
  destruct c as [s|l]; cbn [heap store nextHandle]; rewrite js_incr_exact by done;
    cbn [settle after_handler]; unfold finish;
    cbn [w_state w_now w_port timeout s_phase s_req didTimeout];
    repeat case_match; simplify_eq;
    do 2 eexists; (split; [reflexivity|]);
    cbn [w_state w_now w_port timeout s_phase s_req didTimeout heap store nextHandle
         with_state];
    (split; [done|]); (split; [done|]); (split; [done|]);
    (split; [by rewrite lookup_insert_eq|done]).
Qed.

Lemma late_open_leaves_an_entry_behind_witness :
  let req := request 7 "open" "/tabs.json" in
  ∃ w' ss',
    steps [Elapse 1500; TimerFires; Settle (Resolved (Some (CString (str "[]"))))]
      (onMessage [tabs_route None] req world0) = Some (w', ss')
    ∧ s_phase ss' = Completed
    ∧ w_port w' = w_port world0 ++ [error_message req unix.ETIMEDOUT]
    ∧ store (w_state world0) !! 1 = None
    ∧ is_Some (store (w_state w') !! 1)
    ∧ nextHandle (w_state w') = 1.
Proof.
  intros req.
  apply (late_open_leaves_an_entry_behind [tabs_route None] (tabs_route None) []
           "getTabs" None req req world0 1500 (CString (str "[]")));
    try reflexivity; [lia | apply issued_initial].
Defined.

(** ** The array of the read accessor *)

(** X23. When the read accessor answers with an array, [open] caches
    that very array, not a copy: a [write] through the handle that does
    not go past the end of the array changes the accessor's array in
    place. *)
Theorem write_changes_the_array_of_the_accessor
    getData (setData : option Accessor) (opening req : Req) (σ0 σ : State) (l : loc) :
  let σ1 := fst (continue (snd (open getData opening σ0)) (Resolved (Some (CArray l))) σ) in
  let bufarr := stringToUtf8Array (default [] (req_buf req)) in
  req_fh req = nextHandle σ1 →
  0 ≤ req_offset req → req_offset req + zlength bufarr ≤ zlength (contents σ l) →
  contents (fst (write setData req σ1)) l = written (contents σ l) bufarr (req_offset req).
Proof.
  intros σ1 bufarr Hfh Ho Hfit.
  assert (Hso : store σ1 !! req_fh req
                = Some {| so_path := req_path opening; so_object := l |}).
  { rewrite Hfh. subst σ1. run_sync. by rewrite lookup_insert_eq. }
  assert (Hσ1 : contents σ1 l = contents σ l) by done.
  run_sync. rewrite Hso. cbn [so_object].
  fold bufarr. fold (contents σ1 l). rewrite Hσ1.
  destruct (Z.gtb_spec (req_offset req + zlength bufarr) (zlength (contents σ l)));
    [lia|].
  rewrite write_in_place by done.
  destruct setData; cbn [fst]; unfold contents at 1; cbn [heap];
    by rewrite lookup_insert_eq.
Qed.

Lemma write_changes_the_array_of_the_accessor_witness :
  let σ := {| heap := {[ 7%positive := stringToUtf8Array (str "hello") ]};
              store := ∅; nextHandle := 0 |} in
  let σ1 := fst (continue (snd (open "getTabs" (request 1 "open" "/tabs.json") σ))
                   (Resolved (Some (CArray 7%positive))) σ) in
  contents (fst (write None (request_fh 2 "write" "/tabs.json" 1 0 0 (Some (str "J"))) σ1))
    7%positive
  = stringToUtf8Array (str "Jello").
Proof.
  intros σ σ1.
  by apply (write_changes_the_array_of_the_accessor "getTabs" None
              (request 1 "open" "/tabs.json")
              (request_fh 2 "write" "/tabs.json" 1 0 0 (Some (str "J"))) σ σ 7%positive).
Defined.

(** ** The payload a handler sees *)

Section payload.

Local Open Scope N_scope.

Lemma sextet_bounded (c v : N) : Base64.sextet c = Some v → v < 64.
Proof.
  unfold Base64.sextet.
  destruct (N.leb_spec 65 c), (N.leb_spec c 90), (N.leb_spec 97 c), (N.leb_spec c 122),
    (N.leb_spec 48 c), (N.leb_spec c 57), (N.eqb_spec c 43), (N.eqb_spec c 47);
    cbn [andb]; intros [= <-]; lia.
Qed.

Lemma sextets_bounded (s : jsstring) (vs : list N) :
  Base64.sextets s = Some vs → Forall (λ v, v < 64) vs.
Proof.
  revert vs. induction s as [|c s IH]; intros vs; cbn [Base64.sextets].
  - intros [= <-]. constructor.
  - destruct (Base64.sextet c) as [v|] eqn:Hv; [|done].
    destruct (Base64.sextets s) as [vs'|]; [|done].
    intros [= <-]. constructor; [by eapply sextet_bounded | by apply IH].
Qed.

Lemma decode_bounded (vs : list N) :
  Forall (λ v, v < 64) vs → Forall (λ c, c < 256) (Base64.decode vs).
Proof.
  remember (length vs) as n eqn:Hn. revert vs Hn.
  induction n as [n IH] using lt_wf_ind. intros vs Hn Hvs.
  destruct vs as [|a [|b [|c [|d rest]]]]; cbn [Base64.decode].
  - constructor.
  - constructor.
  - apply Forall_cons in Hvs as [Ha Hvs]. apply Forall_cons in Hvs as [Hb _].
    repeat constructor. euclid_lia.
  - apply Forall_cons in Hvs as [Ha Hvs]. apply Forall_cons in Hvs as [Hb Hvs].
    apply Forall_cons in Hvs as [Hc _].
    repeat constructor; euclid_lia.
  - apply Forall_cons in Hvs as [Ha Hvs]. apply Forall_cons in Hvs as [Hb Hvs].
    apply Forall_cons in Hvs as [Hc Hvs]. apply Forall_cons in Hvs as [Hd Hrest].
    cbv zeta. repeat (constructor; [euclid_lia|]).
    apply (IH (length rest)); [subst n; cbn [length]; lia | done | done].
Qed.

Lemma atob_bounded (s out : jsstring) :
  Base64.atob s = inr out → Forall (λ c, c < 256) out.
Proof.
  unfold Base64.atob. intros H.
  repeat case_match; simplify_eq.
  all: by eapply decode_bounded, sextets_bounded.
Qed.

End payload.

(** X24. The [buf] that a handler sees is a binary string: after
    [onMessage] has decoded it, every character of it is below 256, so
    that it holds no surrogate and no byte order mark, whatever the host
    sent. *)
Theorem decoded_payload_is_a_binary_string (req req' : Req) (buf : jsstring) :
  decode_buf req = inr req' → req_buf req' = Some buf →
  Forall (λ c, (c < 256)%N) buf ∧ well_formed buf = true ∧ without_bom buf = buf.
Proof.
  intros Hd Hbuf.
  assert (Hbytes : Forall (λ c, (c < 256)%N) buf).
  { unfold decode_buf in Hd. destruct (req_buf req) as [b|] eqn:Hb; [|by simplify_eq].
    destruct (truthy (VStr b)) eqn:Ht.
    - destruct (Base64.atob b) as [e|out] eqn:Ha; [done|].
      simplify_eq. cbn [set_buf req_buf] in Hbuf. simplify_eq. by eapply atob_bounded.
    - simplify_eq. cbn [truthy] in Ht. apply negb_false_iff, bool_decide_eq_true in Ht.
      subst b. constructor. }
  split; [done|].
  assert (Hpayload : buf = fromCharCode (map byte_of_N buf)).
  { unfold fromCharCode. rewrite map_map. symmetry. etrans; [|apply map_id].
    apply map_ext_Forall. eapply Forall_impl; [exact Hbytes|].
    intros c Hc. by apply to_N_byte_of_N. }
  rewrite Hpayload. split; [apply well_formed_binary | apply without_bom_binary].
Qed.

Lemma decoded_payload_is_a_binary_string_witness :
  Forall (λ c, (c < 256)%N) [0xC3; 0xA9]%N
  ∧ well_formed [0xC3; 0xA9]%N = true ∧ without_bom [0xC3; 0xA9]%N = [0xC3; 0xA9]%N.
Proof.
  by apply (decoded_payload_is_a_binary_string
              (request_fh 2 "write" "/tabs.json" 1 0 0 (Some (str "w6k=")))
              (request_fh 2 "write" "/tabs.json" 1 0 0 (Some [0xC3; 0xA9]%N))).
Defined.
